(** * ziper_imager: image walker, classifier, archive builder and delivery gate

    A shallow embedding of [ziper_imager.go].  The program lists a directory
    tree, sniffs the first 261 bytes of every regular file, collects the
    paths of the files that look like images in the package-level slice
    [imageFiles], writes them into one zip archive and hands the archive to
    a chat endpoint.

    Packages outside the repository (the [filetype] signature table, the
    Deflate codec, the HTTP client) are interfaces here: type classes whose
    instances are supplied where a concrete run is evaluated. *)

From Stdlib Require Import ZArith.
From Stdlib.Strings Require Import Byte.
From stdpp Require Import list strings.

Open Scope list_scope.

(** ** Paths

    A path is kept in [filepath.Clean] form, as the list of its components;
    [filepath.Join] of such a path and a directory entry name (which holds no
    separator) adds one component. *)

Abbreviation path := (list string).

Definition Join (location : path) (name : string) : path := location ++ [name].

(** ** Bytes and the signature window *)

Definition byte_at (buf : list byte) (i : nat) (b : byte) : bool :=
  match buf !! i with
  | Some c => Byte.eqb c b
  | None => false
  end.

(** [make([]byte, 261)]: the sniffing buffer, zero filled. *)
Definition window : nat := 261.

Definition make (n : nat) : list byte := replicate n x00.

(** The buffer after one [Read] that delivered [got]: the bytes read sit in
    front, the rest of the buffer keeps its zeros. *)
Definition fill (got : list byte) : list byte :=
  take window got ++ make (window - length (take window got)).

(** ** The signature table of the [filetype] package *)

Class Filetype := { IsImage : list byte → bool }.

(** Modelled from the spec: the matchers of the external [filetype] package
    are not part of the repository; these are the five formats the
    classifier contract names (JPEG, PNG, GIF, WebP, BMP), each a length
    test followed by comparisons of fixed bytes. *)
Definition Jpeg (buf : list byte) : bool :=
  (2 <? length buf) && byte_at buf 0 xff && byte_at buf 1 xd8 && byte_at buf 2 xff.

Definition Png (buf : list byte) : bool :=
  (3 <? length buf) && byte_at buf 0 x89 && byte_at buf 1 x50
  && byte_at buf 2 x4e && byte_at buf 3 x47.

Definition Gif (buf : list byte) : bool :=
  (2 <? length buf) && byte_at buf 0 x47 && byte_at buf 1 x49 && byte_at buf 2 x46.

Definition Webp (buf : list byte) : bool :=
  (11 <? length buf) && byte_at buf 8 x57 && byte_at buf 9 x45
  && byte_at buf 10 x42 && byte_at buf 11 x50.

Definition Bmp (buf : list byte) : bool :=
  (1 <? length buf) && byte_at buf 0 x42 && byte_at buf 1 x4d.

Definition signature_match (buf : list byte) : bool :=
  Jpeg buf || Png buf || Gif buf || Webp buf || Bmp buf.

Definition signatures : Filetype := {| IsImage := signature_match |}.

(** ** Configuration: the package-level flag variables *)

Record config := {
  location : path;
  outputZip : path;
  telegramToken : string;
  telegramChatID : string;
  message : string;
  debug : bool;
  silence : bool;
}.

(** ** Files as the program sees them *)

Record file := {
  f_open_err : bool;      (* os.Open fails *)
  f_read_err : bool;      (* the first Read fails with an error other than io.EOF *)
  f_stat_err : bool;      (* Stat on the open file fails *)
  f_copy_err : option nat;  (* io.Copy stops with an error after that many bytes *)
  f_data : list byte;
  f_mtime : Z;              (* ModTime, in seconds since 1970 *)
}.

(** ** What the program prints, by stream *)

Inductive msg :=
| Found (p : path)                   (* outStream: the discovered path *)
| ReadDirFailed (p : path)           (* errStream: os.ReadDir error *)
| InfoFailed (p : path) (name : string)  (* errStream: entry.Info error *)
| OpenFailed (p : path)              (* errStream: "file open failed" *)
| ReadFailed (p : path)              (* errStream: "file read failed" *)
| ImageFile (p : path)               (* os.Stdout, debug: "Image file: " *)
| NotImageFile (p : path).           (* errStream, debug: "Not Image file" *)

Definition on_errStream (m : msg) : bool :=
  match m with
  | Found _ | ImageFile _ => false
  | _ => true
  end.

Inductive error := EOF | EINVAL | EIO | ENOENT | EACCES | EmptyChatID | BadStatus (code : nat).

Definition failed (err : option error) : bool :=
  match err with
  | Some _ => true
  | None => false
  end.

(** [file.Read(buf)] on a fresh 261-byte buffer: the buffer afterwards and
    the error.  A nil handle (open failed, error ignored) answers
    [EINVAL]; an empty file answers [io.EOF]. *)
Definition Read (opened : bool) (f : file) : list byte * option error :=
  if negb opened then (make window, Some EINVAL)
  else if f_read_err f then (make window, Some EIO)
  else match f_data f with
       | [] => (make window, Some EOF)
       | d => (fill d, None)
       end.

(** ** The directory tree

    A directory holds its entries in the order [os.ReadDir] returns them.
    An entry whose [Info] call fails is flagged; a [File] stands for
    whatever else can be opened without waiting (regular files, links);
    a pipe nobody writes to, on which [os.Open] does not return, is not
    modelled. *)

Inductive node :=
| File (f : file)
| Dir (readdir_err : bool) (entries : list dirent)
with dirent :=
| Entry (name : string) (info_err : bool) (n : node).

(** ** The effects of one call of [search]

    The tree is only read, so what a call of [search] does is fixed by the
    tree: a sequence of prints, appends to [imageFiles], goroutine launches
    and the final [wg.Wait]. *)

Inductive op :=
| Print (m : msg)
| Append (p : path)       (* imageFiles = append(imageFiles, fullPath) *)
| Go (body : list op)     (* wg.Add(1); go func(path) { defer wg.Done(); search(path) } *)
| Wait.                   (* wg.Wait() *)

(** ** The classifier and the walker *)

Section Classifier.
Context `{Filetype}.
Variable cfg : config.

(** [isImageFile]: the verdict and what it printed. *)
Definition isImageFile (p : path) (f : file) : bool * list msg :=
  let opened := negb (f_open_err f) in
  if f_open_err f && negb (silence cfg) then (false, [OpenFailed p])
  else
    let '(buf, err) := Read opened f in
    if failed err && negb (silence cfg) then (false, [ReadFailed p])
    else
      let isImage := IsImage buf in
      (isImage,
       if debug cfg then [if isImage then ImageFile p else NotImageFile p] else []).

(** [search]: what the call does, in order. *)
Fixpoint search (location : path) (n : node) : list op :=
  match n with
  | Dir false entries =>
      (fix range (es : list dirent) : list op :=
         match es with
         | [] => [Wait]
         | Entry name info_err child :: es' =>
             if info_err then Print (InfoFailed location name) :: range es'
             else
               let fullPath := Join location name in
               match child with
               | Dir _ _ => Go (search fullPath child) :: range es'
               | File f =>
                   let '(isImage, printed) := isImageFile fullPath f in
                   (Print <$> printed)
                   ++ (if isImage then [Append fullPath; Print (Found fullPath)] else [])
                   ++ range es'
               end
         end) entries
  | _ => [Print (ReadDirFailed location)]
  end.

(** One turn of the [for _, entry := range entries] loop. *)
Definition visit (location : path) (e : dirent) : list op :=
  let 'Entry name info_err child := e in
  if info_err then [Print (InfoFailed location name)]
  else
    let fullPath := Join location name in
    match child with
    | Dir _ _ => [Go (search fullPath child)]
    | File f =>
        let '(isImage, printed) := isImageFile fullPath f in
        (Print <$> printed)
        ++ (if isImage then [Append fullPath; Print (Found fullPath)] else [])
    end.

End Classifier.

(** The appends and the prints of a call, goroutines included, in the order
    of a run that finishes every goroutine where it is launched. *)
Fixpoint op_appends (o : op) : list path :=
  match o with
  | Append p => [p]
  | Go body => (fix all (c : list op) : list path :=
                  match c with
                  | [] => []
                  | o' :: c' => op_appends o' ++ all c'
                  end) body
  | _ => []
  end.

Definition appends (c : list op) : list path := c ≫= op_appends.

Fixpoint op_prints (o : op) : list msg :=
  match o with
  | Print m => [m]
  | Go body => (fix all (c : list op) : list msg :=
                  match c with
                  | [] => []
                  | o' :: c' => op_prints o' ++ all c'
                  end) body
  | _ => []
  end.

Definition prints (c : list op) : list msg := c ≫= op_prints.

(** ** Goroutines over the shared slice

    [imageFiles] is a slice header (array, length, capacity) in a package
    variable; [append] reads the header, writes the new element into the
    array (a fresh, larger one when the capacity is used up) and the
    assignment stores the new header.  Nothing orders these three accesses
    between goroutines, so each is a step of its own.

    The steps are taken in the order of the statement as it is written,
    and a header is read and stored whole.  The language fixes neither for
    a program with a race: compiled code may store the words of the header
    one by one and before the element.  What is proved of every schedule
    below is therefore kept to what does not hang on it: what is printed,
    which goroutines have returned, and whether the collection is empty;
    what the collection holds is proved where no two goroutines append. *)

Record slice := { ptr : nat; len : nat; cap : nat }.

Record memory := {
  heap : list (list path);    (* the backing arrays, by address *)
  imageFiles : slice;
  printed : list msg;
}.

Definition nil_slice : slice := {| ptr := 0; len := 0; cap := 0 |}.

Definition start : memory :=
  {| heap := [[]]; imageFiles := nil_slice; printed := [] |}.

Definition array (h : list (list path)) (a : nat) : list path := default [] (h !! a).

Definition elements (m : memory) : list path :=
  take (len (imageFiles m)) (array (heap m) (ptr (imageFiles m))).

(** The runtime's capacity rule for a slice that has to grow (the rounding
    up to an allocation size class, which only enlarges it, is left out). *)
Definition nextslicecap (newLen oldCap : nat) : nat :=
  if 2 * oldCap <? newLen then newLen
  else if oldCap <? 256 then 2 * oldCap
  else oldCap + (oldCap + 3 * 256) / 4.

(** [append(s, p)]: the arrays afterwards and the header it returns. *)
Definition append (h : list (list path)) (s : slice) (p : path)
  : list (list path) * slice :=
  if len s <? cap s then
    (alter (λ a, <[len s := p]> a) (ptr s) h,
     {| ptr := ptr s; len := S (len s); cap := cap s |})
  else
    let c := nextslicecap (S (len s)) (cap s) in
    (h ++ [take (len s) (array h (ptr s)) ++ p :: replicate (c - S (len s)) []],
     {| ptr := length h; len := S (len s); cap := c |}).

Inductive stage :=
| Fresh                 (* not inside an append *)
| Loaded (s : slice)    (* has read the header of imageFiles *)
| Grown (s : slice).    (* has written the element and holds the new header *)

Inductive goroutine :=
| Goroutine (code : list op) (st : stage) (kids : list goroutine).

Definition finished (g : goroutine) : bool :=
  match g with
  | Goroutine [] _ _ => true
  | _ => false
  end.

Definition set_heap (h : list (list path)) (m : memory) : memory :=
  {| heap := h; imageFiles := imageFiles m; printed := printed m |}.

Definition set_imageFiles (s : slice) (m : memory) : memory :=
  {| heap := heap m; imageFiles := s; printed := printed m |}.

Definition print (x : msg) (m : memory) : memory :=
  {| heap := heap m; imageFiles := imageFiles m; printed := printed m ++ [x] |}.

(** One step of a goroutine's own code; [None] when it cannot move
    ([wg.Wait] with a goroutine of its own still running, or at the end). *)
Definition own_step (m : memory) (g : goroutine) : option (memory * goroutine) :=
  let 'Goroutine code st kids := g in
  match code with
  | [] => None
  | Print x :: c => Some (print x m, Goroutine c st kids)
  | Append p :: c =>
      match st with
      | Fresh => Some (m, Goroutine code (Loaded (imageFiles m)) kids)
      | Loaded s =>
          let '(h, s') := append (heap m) s p in
          Some (set_heap h m, Goroutine code (Grown s') kids)
      | Grown s' => Some (set_imageFiles s' m, Goroutine c Fresh kids)
      end
  | Go body :: c => Some (m, Goroutine c st (kids ++ [Goroutine body Fresh []]))
  | Wait :: c => if forallb finished kids then Some (m, Goroutine c st kids) else None
  end.

(** A step of the goroutine found by walking down [who]: [[]] is the
    goroutine itself, [i :: who'] leads into the i-th one it launched. *)
Fixpoint step_at (who : list nat) (m : memory) (g : goroutine)
  : option (memory * goroutine) :=
  match who with
  | [] => own_step m g
  | i :: who' =>
      let 'Goroutine code st kids := g in
      match kids !! i with
      | Some k =>
          match step_at who' m k with
          | Some (m', k') => Some (m', Goroutine code st (<[i := k']> kids))
          | None => None
          end
      | None => None
      end
  end.

Fixpoint run_schedule (sched : list (list nat)) (m : memory) (g : goroutine)
  : option (memory * goroutine) :=
  match sched with
  | [] => Some (m, g)
  | who :: sched' =>
      match step_at who m g with
      | Some (m', g') => run_schedule sched' m' g'
      | None => None
      end
  end.

(** The walk under a schedule: [Some] the final memory when the schedule
    is one of this walk and brings the top-level call to its return. *)
Definition walk (sched : list (list nat)) (code : list op) : option memory :=
  match run_schedule sched start (Goroutine code Fresh []) with
  | Some (m, g) => if finished g then Some m else None
  | None => None
  end.

(** The slice header points into the heap and stays within its array. *)
Definition sound (m : memory) : Prop :=
  len (imageFiles m) ≤ cap (imageFiles m)
  ∧ length (array (heap m) (ptr (imageFiles m))) = cap (imageFiles m).

(** A schedule that runs every goroutine to its end where it is launched.
    [launched] counts the goroutines the running one has started so far;
    the turns of a goroutine are addressed from the one that started it. *)
Definition launches (o : op) : nat :=
  match o with
  | Go _ => 1
  | _ => 0
  end.

Fixpoint op_turns (launched : nat) (o : op) : list (list nat) :=
  match o with
  | Append _ => [[]; []; []]
  | Go body =>
      [] :: (cons launched <$>
               (fix all (c : list op) (j : nat) : list (list nat) :=
                  match c with
                  | [] => []
                  | o' :: c' => op_turns j o' ++ all c' (j + launches o')
                  end) body 0)
  | _ => [[]]
  end.

Fixpoint turns (launched : nat) (c : list op) : list (list nat) :=
  match c with
  | [] => []
  | o :: c' => op_turns launched o ++ turns (launched + launches o) c'
  end.

Definition one_by_one (c : list op) : list (list nat) := turns 0 c.

(** What holds of the collection under every schedule of these steps.
    [allowed] are the paths the walk may append; a header is [valid] when
    it points at an array of its capacity whose cells below its length
    hold such paths, a goroutine is [safe] when the header it holds in the
    middle of an append is valid, its code appends only such paths, and
    the goroutines it launched are safe. *)
Section Safety.
Variable allowed : list path.

Definition valid (h : list (list path)) (s : slice) : Prop :=
  ptr s < length h
  ∧ len s ≤ cap s
  ∧ length (array h (ptr s)) = cap s
  ∧ Forall (λ x, x ∈ allowed) (take (len s) (array h (ptr s))).

Definition stage_valid (h : list (list path)) (st : stage) : Prop :=
  match st with
  | Fresh => True
  | Loaded s | Grown s => valid h s
  end.

Fixpoint safe (h : list (list path)) (g : goroutine) : Prop :=
  let 'Goroutine code st kids := g in
  (∀ p, p ∈ appends code → p ∈ allowed)
  ∧ stage_valid h st
  ∧ (fix all (ks : list goroutine) : Prop :=
       match ks with
       | [] => True
       | k :: ks' => safe h k ∧ all ks'
       end) kids.

End Safety.

(** What it is for an operation, and for a piece of code, to run through
    under that schedule: from a sound memory, in a goroutine whose own
    goroutines have all returned, the turns bring it behind the operation
    (to the end of the code), the appends have been added behind the
    elements in order and the prints behind the lines printed. *)
Definition runs_op (o : op) : Prop :=
  ∀ m kids rest, sound m → Forall (λ g, finished g = true) kids →
    ∃ m' kids',
      run_schedule (op_turns (length kids) o) m (Goroutine (o :: rest) Fresh kids)
      = Some (m', Goroutine rest Fresh kids')
      ∧ length kids' = length kids + launches o
      ∧ sound m' ∧ Forall (λ g, finished g = true) kids'
      ∧ elements m' = elements m ++ op_appends o
      ∧ printed m' = printed m ++ op_prints o.

Definition runs_code (c : list op) : Prop :=
  ∀ m kids, sound m → Forall (λ g, finished g = true) kids →
    ∃ m' kids',
      run_schedule (turns (length kids) c) m (Goroutine c Fresh kids)
      = Some (m', Goroutine [] Fresh kids')
      ∧ sound m' ∧ Forall (λ g, finished g = true) kids'
      ∧ elements m' = elements m ++ appends c
      ∧ printed m' = printed m ++ prints c.

(** ** The archive

    The zip container and its Deflate codec belong to the standard library:
    [deflate]/[inflate] are the codec, [encode] lays the entries and the
    central directory out as the bytes of the archive file. *)

Inductive method := Store | Deflate.

Record FileInfo := { fi_name : string; fi_size : Z; fi_modtime : Z }.

Record FileHeader := {
  Name : path;
  Modified : Z;
  UncompressedSize64 : Z;
  Method : method;
}.

Record entry := { header : FileHeader; body : list byte }.

Class Zip := {
  deflate : list byte → list byte;
  inflate : list byte → option (list byte);
  encode : list entry → list byte;
}.

(** The file system: the file a path reaches, which paths reach one file
    (a hard link, a symbolic link, another spelling of a path), and what a
    path that reaches the archive finds there while the archive is being
    written.  The last depends on what the writer has flushed by then and
    is left open. *)
Record disk := {
  lookup :> path → option file;
  same_file : path → path → bool;
  growing : file;
}.

(** [p] reaches the file that [q] reaches. *)
Definition reaches (d : disk) (p q : path) : bool :=
  bool_decide (p = q) || same_file d p q.

Definition Base (p : path) : string := default EmptyString (last p).

Definition Stat (p : path) (f : file) : FileInfo :=
  {| fi_name := Base p; fi_size := Z.of_nat (length (f_data f)); fi_modtime := f_mtime f |}.

Definition FileInfoHeader (fi : FileInfo) : FileHeader :=
  {| Name := [fi_name fi]; Modified := fi_modtime fi;
     UncompressedSize64 := fi_size fi; Method := Store |}.

Definition set_Name (n : path) (h : FileHeader) : FileHeader :=
  {| Name := n; Modified := Modified h;
     UncompressedSize64 := UncompressedSize64 h; Method := Method h |}.

Definition set_Method (c : method) (h : FileHeader) : FileHeader :=
  {| Name := Name h; Modified := Modified h;
     UncompressedSize64 := UncompressedSize64 h; Method := c |}.

Definition set_Size (n : Z) (h : FileHeader) : FileHeader :=
  {| Name := Name h; Modified := Modified h;
     UncompressedSize64 := n; Method := Method h |}.

Definition set_Modified (t : Z) (h : FileHeader) : FileHeader :=
  {| Name := Name h; Modified := t;
     UncompressedSize64 := UncompressedSize64 h; Method := Method h |}.

(** The conversion [uint32(t)] of a signed number of seconds. *)
Definition uint32 (t : Z) : Z := t mod 2 ^ 32.

Definition a_file (d : list byte) : file :=
  {| f_open_err := false; f_read_err := false; f_stat_err := false;
     f_copy_err := None; f_data := d; f_mtime := 0 |}.

Section Archive.
Context `{Zip}.

Definition compress (c : method) (raw : list byte) : list byte :=
  match c with
  | Store => raw
  | Deflate => deflate raw
  end.

Definition extract (e : entry) : option (list byte) :=
  match Method (header e) with
  | Store => Some (body e)
  | Deflate => inflate (body e)
  end.

(** The entry as it stands in the archive once the writer has closed it:
    the bytes that went through the entry writer, compressed, their count
    as the size, and the time as the writer stores it, in the 32 bits of
    [uint32(Modified.Unix())]. *)
Definition close_entry (h : FileHeader) (written : list byte) : entry :=
  {| header := set_Modified (uint32 (Modified h))
                 (set_Size (Z.of_nat (length written)) h);
     body := compress (Method h) written |}.

(** [addToZip]: the writer's entries afterwards and the error returned. *)
Definition addToZip (d : disk) (imgPath : path) (zipWriter : list entry)
  : list entry * option error :=
  match d imgPath with
  | None => (zipWriter, Some ENOENT)
  | Some fileToZip =>
      if f_open_err fileToZip then (zipWriter, Some EACCES)
      else if f_stat_err fileToZip then (zipWriter, Some EIO)
      else
        let info := Stat imgPath fileToZip in
        let header := set_Method Deflate (set_Name imgPath (FileInfoHeader info)) in
        match f_copy_err fileToZip with
        | Some n => (zipWriter ++ [close_entry header (take n (f_data fileToZip))], Some EIO)
        | None => (zipWriter ++ [close_entry header (f_data fileToZip)], None)
        end
  end.

(** The loop of [zipImages]. *)
Fixpoint add_each (d : disk) (imageFiles : list path) (zipWriter : list entry)
  : list entry * option error :=
  match imageFiles with
  | [] => (zipWriter, None)
  | img :: rest =>
      match addToZip d img zipWriter with
      | (zw, Some err) => (zw, Some err)
      | (zw, None) => add_each d rest zw
      end
  end.

(** [os.Create]: the file at [output] exists afterwards and is the
    archive, under every path that reaches it. *)
Definition Create (output : path) (d : disk) : disk :=
  {| lookup := λ p, if reaches d p output then Some (growing d) else d p;
     same_file := same_file d;
     growing := growing d |}.

(** [zipImages]: the entries the closed archive holds ([None] when the
    output file could not be created) and the error returned.  An entry is
    read from the disk as [os.Create] left it. *)
Definition zipImages (create_err : bool) (d : disk) (imageFiles : list path) (output : path)
  : option (list entry) * option error :=
  if create_err then (None, Some EACCES)
  else
    let '(zw, err) := add_each (Create output d) imageFiles [] in
    (Some zw, err).

End Archive.

(** The entry the archive holds for a file that went in: named by the
    path as given, stamped with the modification time of the file's
    metadata in 32 bits and with its size, compressed with Deflate. *)
Definition entry_of `{Zip} (p : path) (f : file) : entry :=
  {| header := {| Name := p; Modified := uint32 (fi_modtime (Stat p f));
                  UncompressedSize64 := fi_size (Stat p f); Method := Deflate |};
     body := deflate (f_data f) |}.

(** A path that can be opened, stat'ed and copied to its end. *)
Definition zippable (d : disk) (p : path) : bool :=
  match d p with
  | Some f => negb (f_open_err f) && negb (f_stat_err f) && bool_decide (f_copy_err f = None)
  | None => false
  end.

(** ** The world of one run *)

Record world := {
  root : option node;     (* what sits at [location]; [None]: os.Stat fails *)
  create_err : bool;      (* os.Create of the output file fails *)
  links : path → path → bool;   (* the first path reaches the file of the second *)
  unfinished : file;      (* the archive as a path finds it during the build *)
}.

(** The file a path leads to, looked up from the directory at the root. *)
Fixpoint resolve (n : node) (rest : path) : option file :=
  match n, rest with
  | File f, [] => Some f
  | Dir _ entries, name :: rest' =>
      (fix find (es : list dirent) : option file :=
         match es with
         | [] => None
         | Entry nm _ child :: es' =>
             if String.eqb nm name then resolve child rest' else find es'
         end) entries
  | _, _ => None
  end.

Fixpoint below (location p : path) : option path :=
  match location, p with
  | [], _ => Some p
  | a :: location', b :: p' => if String.eqb a b then below location' p' else None
  | _ :: _, [] => None
  end.

Definition disk_of (location : path) (w : world) : disk :=
  {| lookup := λ p, n ← root w; rest ← below location p; resolve n rest;
     same_file := links w;
     growing := unfinished w |}.

(** ** The chat endpoint *)

Inductive request :=
| sendMessage (token chatID text : string)
| sendDocument (token chatID filename : string) (document : list byte).

(** Sending a request, from [http.NewRequest] over [client.Do] to the
    reading of the reply: the status code, or [None] for an error on the
    way. *)
Class Http := { Do : request → option nat }.

Definition StatusOK : nat := 200.

(** What a run prints and whom it calls, in order. *)
Inductive line :=
| Walked (m : msg)
| InvalidLocation                         (* outStream *)
| ZippingFailed (e : error)               (* errStream *)
| Zipped (n : nat) (output : path)        (* outStream *)
| StatsFailed                             (* errStream *)
| TooLarge (size : Z)                     (* errStream *)
| MessageFailed (e : error)               (* errStream *)
| FileFailed (e : error)                  (* errStream *)
| Sent (output : path) (chatID : string)  (* outStream *)
| NoImageFiles                            (* outStream *)
| Called (r : request).                   (* the program set out to send r *)

Definition is_call (l : line) : bool :=
  match l with
  | Called _ => true
  | _ => false
  end.

Definition nonempty (s : string) : bool := negb (String.eqb s EmptyString).

Section Run.
Context `{Filetype} `{Zip} `{Http}.
Variable cfg : config.
Variable w : world.

Definition reply (r : request) : option error :=
  match Do r with
  | None => Some EIO
  | Some code => if code =? StatusOK then None else Some (BadStatus code)
  end.

Definition sendMessageToTelegram (message token chatID : string)
  : option error * list line :=
  if String.eqb chatID EmptyString then (Some EmptyChatID, [])
  else
    let r := sendMessage token chatID message in
    (reply r, [Called r]).

Definition sendFileToTelegram (d : disk) (filePath : path) (message token chatID : string)
  : option error * list line :=
  if String.eqb chatID EmptyString then (Some EmptyChatID, [])
  else
    match d filePath with
    | None => (Some ENOENT, [])
    | Some fileData =>
        if f_open_err fileData then (Some EACCES, [])
        else
          let r := sendDocument token chatID (Base filePath) (f_data fileData) in
          (reply r, [Called r])
    end.

(** The disk once [zipImages] has returned: the archive file holds the
    encoded entries, under every path that reaches it. *)
Definition with_archive (archive : option (list entry)) (d : disk) : disk :=
  match archive with
  | Some es =>
      {| lookup := λ p, if reaches d p (outputZip cfg)
                        then Some (a_file (encode es)) else d p;
         same_file := same_file d;
         growing := growing d |}
  | None => d
  end.

Definition limit : Z := (20 * 1024 * 1024)%Z.

(** [run] from the test [len(imageFiles) > 0] on: the exit status and the
    lines. *)
Definition deliver (imageFiles : list path) : Z * list line :=
  if 0 <? length imageFiles then
    let d := disk_of (location cfg) w in
    let '(archive, err) := zipImages (create_err w) d imageFiles (outputZip cfg) in
    match err with
    | Some e => (1%Z, [ZippingFailed e])
    | None =>
        let zipped := Zipped (length imageFiles) (outputZip cfg) in
        let d' := with_archive archive d in
        match d' (outputZip cfg) with
        | None => (1%Z, [zipped; StatsFailed])
        | Some zipFile =>
            let size := fi_size (Stat (outputZip cfg) zipFile) in
            if (limit <? size)%Z then (1%Z, [zipped; TooLarge size])
            else
              let '(err, calls) :=
                sendMessageToTelegram (message cfg) (telegramToken cfg) (telegramChatID cfg) in
              match err with
              | Some e => (1%Z, zipped :: calls ++ [MessageFailed e])
              | None =>
                  if nonempty (telegramToken cfg) && nonempty (telegramChatID cfg)
                     && nonempty (message cfg)
                  then
                    let '(err', calls') :=
                      sendFileToTelegram d' (outputZip cfg) (message cfg)
                        (telegramToken cfg) (telegramChatID cfg) in
                    match err' with
                    | Some e => (1%Z, zipped :: calls ++ calls' ++ [FileFailed e])
                    | None =>
                        (0%Z, zipped :: calls ++ calls'
                              ++ [Sent (outputZip cfg) (telegramChatID cfg)])
                    end
                  else (0%Z, zipped :: calls)
              end
        end
    end
  else (0%Z, [NoImageFiles]).

(** [run] under a schedule of the walk's goroutines; [None] when the
    schedule is not one that brings this walk to its end. *)
Definition run (sched : list (list nat)) : option (Z * list line) :=
  match root w with
  | None => Some (1%Z, [InvalidLocation])
  | Some n =>
      m ← walk sched (search cfg (location cfg) n);
      let '(status, lines) := deliver (elements m) in
      Some (status, (Walked <$> printed m) ++ lines)
  end.

End Run.

(** ** The files a walk can meet *)

Definition entry_name (e : dirent) : string := let 'Entry name _ _ := e in name.

Definition entry_node (e : dirent) : node := let 'Entry _ _ n := e in n.

(** No directory lists a name twice. *)
Fixpoint tidy (n : node) : Prop :=
  match n with
  | File _ => True
  | Dir _ entries =>
      NoDup (entry_name <$> entries)
      ∧ (fix all (es : list dirent) : Prop :=
           match es with
           | [] => True
           | Entry _ _ child :: es' => tidy child ∧ all es'
           end) entries
  end.

(** The file met by going down [rest] from a node: every directory on the
    way can be listed and the [Info] call of every entry taken succeeds. *)
Fixpoint reach (n : node) (rest : path) : option file :=
  match n, rest with
  | File f, [] => Some f
  | Dir false entries, name :: rest' =>
      (fix find (es : list dirent) : option file :=
         match es with
         | [] => None
         | Entry nm info_err child :: es' =>
             if String.eqb nm name
             then (if info_err then None else reach child rest')
             else find es'
         end) entries
  | _, _ => None
  end.

Definition reach_entry (e : dirent) (rest : path) : option file :=
  let 'Entry _ info_err child := e in
  if info_err then None else reach child rest.

Fixpoint reach_in (es : list dirent) (name : string) (rest : path) : option file :=
  match es with
  | [] => None
  | e :: es' =>
      if String.eqb (entry_name e) name then reach_entry e rest
      else reach_in es' name rest
  end.

Section Collected.
Context `{Filetype}.
Variable cfg : config.

(** What the appends of a walk have to be: the paths of the files met that
    [isImageFile] accepts, each once; said of one turn of the loop and of
    a call of [search]. *)
Definition entry_collects (location : path) (e : dirent) : Prop :=
  NoDup (appends (visit cfg location e))
  ∧ ∀ p, p ∈ appends (visit cfg location e)
         ↔ ∃ rest f, p = location ++ entry_name e :: rest
                     ∧ reach_entry e rest = Some f
                     ∧ (isImageFile cfg p f).1 = true.

Definition node_collects (n : node) : Prop :=
  ∀ location, tidy n →
    NoDup (appends (search cfg location n))
    ∧ ∀ p, p ∈ appends (search cfg location n)
           ↔ ∃ name rest f, p = location ++ name :: rest
                            ∧ reach n (name :: rest) = Some f
                            ∧ (isImageFile cfg p f).1 = true.

End Collected.

(** ** Entries the walk cannot go through *)

(** An entry fails when its [Info] call fails, when it is a directory that
    cannot be listed, or when it is a file that cannot be opened or whose
    first [Read] returns an error ([io.EOF] on an empty file included). *)
Definition failing (e : dirent) : bool :=
  match e with
  | Entry _ true _ => true
  | Entry _ false (Dir readdir_err _) => readdir_err
  | Entry _ false (File f) => f_open_err f || f_read_err f || bool_decide (f_data f = [])
  end.

(** What [os.ReadDir] can list. *)
Definition listable (n : node) : bool :=
  match n with
  | Dir false _ => true
  | _ => false
  end.

(** ** What a returned walk has done *)

(** A property of every goroutine of a tree. *)
Fixpoint everywhere (P : list op → stage → list goroutine → Prop) (g : goroutine) : Prop :=
  let 'Goroutine code st kids := g in
  P code st kids
  ∧ (fix all (ks : list goroutine) : Prop :=
       match ks with
       | [] => True
       | k :: ks' => everywhere P k ∧ all ks'
       end) kids.

(** A goroutine that has returned, with every goroutine it launched. *)
Fixpoint all_returned (g : goroutine) : bool :=
  let 'Goroutine code _ kids := g in
  match code with
  | [] => (fix all (ks : list goroutine) : bool :=
             match ks with
             | [] => true
             | k :: ks' => all_returned k && all ks'
             end) kids
  | _ => false
  end.

(** The lines a goroutine and those it launched have still to print, and
    the appends they have still to store. *)
Fixpoint pending (g : goroutine) : list msg :=
  let 'Goroutine code _ kids := g in
  prints code
  ++ (fix all (ks : list goroutine) : list msg :=
        match ks with
        | [] => []
        | k :: ks' => pending k ++ all ks'
        end) kids.

Fixpoint unstored (g : goroutine) : nat :=
  let 'Goroutine code _ kids := g in
  length (appends code)
  + (fix all (ks : list goroutine) : nat :=
       match ks with
       | [] => 0
       | k :: ks' => unstored k + all ks'
       end) kids.

(** Code that waits for what it launches, as [search] does: it launches
    nothing or ends with [wg.Wait], and so does every body it launches. *)
Definition waits (c : list op) : Prop :=
  Forall (λ o, launches o = 0) c ∨ last c = Some Wait.

Fixpoint op_joined (o : op) : Prop :=
  match o with
  | Go body =>
      waits body
      ∧ (fix all (c : list op) : Prop :=
           match c with
           | [] => True
           | o' :: c' => op_joined o' ∧ all c'
           end) body
  | _ => True
  end.

Definition joined (c : list op) : Prop := waits c ∧ Forall op_joined c.

(** A goroutine of such code, on its way: its code still ends with the
    wait, or it launches no more and what it launched has returned. *)
Definition settled : goroutine → Prop :=
  everywhere (λ code _ kids,
    (last code = Some Wait
     ∨ (Forall (λ o, launches o = 0) code ∧ Forall (λ k, all_returned k = true) kids))
    ∧ Forall op_joined code).

(** A header in hand after the element was written counts one element at
    least. *)
Definition grown : goroutine → Prop :=
  everywhere (λ _ st _, match st with Grown s => 0 < len s | _ => True end).

(** The paths among the lines of [outStream]. *)
Definition discovered (l : list msg) : list path :=
  omap (λ x, match x with Found p => Some p | _ => None end) l.

(** ** A walk in which one goroutine appends *)

(** Code whose goroutines append nothing, and a goroutine that appends
    nothing, with those it launches. *)
Definition top_level_only (c : list op) : Prop :=
  Forall (λ o, match o with Go body => appends body = [] | _ => True end) c.

Definition appendless : goroutine → Prop :=
  everywhere (λ code _ _, appends code = []).

(** A header that points at an array of the heap, of its capacity. *)
Definition anchored (h : list (list path)) (s : slice) : Prop :=
  ptr s < length h ∧ len s ≤ cap s ∧ length (array h (ptr s)) = cap s.

(** The main goroutine on its way through such code: what is collected,
    with what is still to be appended behind it, is [all]. *)
Definition in_order (all : list path) (m : memory) (g : goroutine) : Prop :=
  let 'Goroutine code st kids := g in
  anchored (heap m) (imageFiles m)
  ∧ Forall appendless kids
  ∧ top_level_only code
  ∧ elements m ++ appends code = all
  ∧ match st with
    | Fresh => True
    | Loaded s => s = imageFiles m
    | Grown s' =>
        ∃ p, head code = Some (Append p)
             ∧ anchored (heap m) s'
             ∧ take (len s') (array (heap m) (ptr s')) = elements m ++ [p]
    end.

Section RootOnly.
Context `{Filetype}.
Variable cfg : config.

(** A directory whose sub-directories hold nothing the walk appends. *)
Definition only_root_collects (location : path) (n : node) : Prop :=
  match n with
  | Dir false entries =>
      Forall (λ e, match e with
                   | Entry name false (Dir err sub) =>
                       appends (search cfg (Join location name) (Dir err sub)) = []
                   | _ => True
                   end) entries
  | _ => True
  end.

End RootOnly.

(** ** Files an archive can take *)

(** A test passed by every file of a tree. *)
Fixpoint every_file (test : file → bool) (n : node) : bool :=
  match n with
  | File f => test f
  | Dir _ entries =>
      (fix all (es : list dirent) : bool :=
         match es with
         | [] => true
         | Entry _ _ child :: es' => every_file test child && all es'
         end) entries
  end.

(** A file that can be opened, stat'ed and copied to its end. *)
Definition copies (f : file) : bool :=
  negb (f_open_err f) && negb (f_stat_err f) && bool_decide (f_copy_err f = None).

(** ** Sample worlds, used where a statement is evaluated *)

Definition quiet : config :=
  {| location := []; outputZip := ["images.zip"]; telegramToken := "";
     telegramChatID := ""; message := ""; debug := false; silence := true |}.

Definition loud : config :=
  {| location := []; outputZip := ["images.zip"]; telegramToken := "";
     telegramChatID := ""; message := ""; debug := false; silence := false |}.

Definition to_chat : config :=
  {| location := []; outputZip := ["images.zip"]; telegramToken := "token";
     telegramChatID := "42"; message := "pictures"; debug := false; silence := false |}.

Definition jpeg_bytes : list byte := [xff; xd8; xff; xe0; x00; x10; x4a; x46; x49; x46].
Definition png_bytes : list byte := [x89; x50; x4e; x47; x0d; x0a; x1a; x0a].
Definition text_bytes : list byte := [x68; x65; x6c; x6c; x6f].

Definition locked (d : list byte) : file :=
  {| f_open_err := true; f_read_err := false; f_stat_err := false;
     f_copy_err := None; f_data := d; f_mtime := 0 |}.

Definition torn (d : list byte) : file :=
  {| f_open_err := false; f_read_err := false; f_stat_err := false;
     f_copy_err := Some 4; f_data := d; f_mtime := 0 |}.

(** [/a.jpg], [/sub/b.txt], [/sub/c.png]. *)
Definition scenario : node :=
  Dir false
    [Entry "a.jpg" false (File (a_file jpeg_bytes));
     Entry "sub" false
       (Dir false [Entry "b.txt" false (File (a_file text_bytes));
                   Entry "c.png" false (File (a_file png_bytes))])].

(** Two directories with one image each. *)
Definition two_dirs : node :=
  Dir false
    [Entry "a" false (Dir false [Entry "1.jpg" false (File (a_file jpeg_bytes))]);
     Entry "b" false (Dir false [Entry "2.png" false (File (a_file png_bytes))])].

(** Both goroutines read the header of [imageFiles] before either stores. *)
Definition racing : list (list nat) :=
  [[]; []; [0]; [1]; [0]; [0]; [1]; [1]; [0]; [1]; [0]; [1]; []].

(** The first goroutine runs to its end before the second starts. *)
Definition in_turn : list (list nat) :=
  [[]; []; [0]; [0]; [0]; [0]; [0]; [1]; [1]; [1]; [1]; [1]; []].

(** A codec that stores: one marker byte, then the data as they are. *)
Definition stored : Zip :=
  {| deflate := λ raw, x01 :: raw;
     inflate := λ packed, match packed with
                          | x01 :: raw => Some raw
                          | _ => None
                          end;
     encode := λ es, es ≫= body |}.

(** An encoder whose archives are one byte over the limit. *)
Definition bulky : Zip :=
  {| deflate := λ raw, x01 :: raw;
     inflate := λ packed, match packed with
                          | x01 :: raw => Some raw
                          | _ => None
                          end;
     encode := λ _, replicate (Z.to_nat (20 * 1024 * 1024 + 1)) x00 |}.

Definition accepting : Http := {| Do := λ _, Some 200 |}.

(** Paths that reach a file each: no links. *)
Definition no_links : path → path → bool := λ _ _, false.

(** A world with the tree and nothing else: no links, and an archive that
    is found empty while it is written. *)
Definition bare (n : option node) : world :=
  {| root := n; create_err := false; links := no_links; unfinished := a_file [] |}.

(** A disk with one picture, [photo.jpg]. *)
Definition album : disk :=
  {| lookup := λ p, if decide (p = ["photo.jpg"]) then Some (a_file jpeg_bytes) else None;
     same_file := no_links;
     growing := a_file [] |}.

(** The same picture under a second name, [copy.jpg], a hard link. *)
Definition linked : disk :=
  {| lookup := λ p, if decide (p = ["photo.jpg"] ∨ p = ["copy.jpg"])
                    then Some (a_file jpeg_bytes) else None;
     same_file := λ p q, bool_decide (p = ["photo.jpg"] ∧ q = ["copy.jpg"]
                                      ∨ p = ["copy.jpg"] ∧ q = ["photo.jpg"]);
     growing := a_file [] |}.

(** A sound picture, [photo.jpg], and one that breaks off when it is
    copied, [old.jpg]. *)
Definition drawer : disk :=
  {| lookup := λ p, if decide (p = ["photo.jpg"]) then Some (a_file jpeg_bytes)
                    else if decide (p = ["old.jpg"]) then Some (torn jpeg_bytes) else None;
     same_file := no_links;
     growing := a_file [] |}.

(** A picture last modified one second before 1970. *)
Definition early : file :=
  {| f_open_err := false; f_read_err := false; f_stat_err := false;
     f_copy_err := None; f_data := jpeg_bytes; f_mtime := -1 |}.

Definition attic : disk :=
  {| lookup := λ p, if decide (p = ["old.jpg"]) then Some early else None;
     same_file := no_links;
     growing := a_file [] |}.

(** A directory with a picture that opens and reads, and breaks off when
    it is copied. *)
Definition worn : node :=
  Dir false [Entry "old.jpg" false (File (torn jpeg_bytes))].

(** A directory with one sound picture. *)
Definition single : node :=
  Dir false [Entry "a.jpg" false (File (a_file jpeg_bytes))].

(** The schedule of a walk with one picture and no goroutine: the three
    steps of the append, the print, the wait. *)
Definition alone : list (list nat) := [[]; []; []; []; []].

(** A directory whose one picture is also where the archive is to go. *)
Definition shoebox : world :=
  bare (Some (Dir false [Entry "photo.jpg" false (File (a_file jpeg_bytes))])).

Definition over_photo : config :=
  {| location := []; outputZip := ["photo.jpg"]; telegramToken := "";
     telegramChatID := ""; message := ""; debug := false; silence := false |}.

(** The [filetype] package knows more formats than the five named; the
    signature of one of them, ICO, is 00 00 01 00 and so ends in a zero
    byte.  [stub] is a file of its first three bytes. *)
Definition Ico (buf : list byte) : bool :=
  (3 <? length buf) && byte_at buf 0 x00 && byte_at buf 1 x00
  && byte_at buf 2 x01 && byte_at buf 3 x00.

Definition with_ico : Filetype := {| IsImage := λ buf, signature_match buf || Ico buf |}.

Definition stub : list byte := [x00; x00; x01].

(** * Facts about the classifier *)

Lemma byte_at_bound (buf : list byte) (i : nat) (b : byte) : byte_at buf i b = true → i < length buf.
Proof.
  unfold byte_at. destruct (buf !! i) eqn:E; [|done].
  intros _. by eapply lookup_lt_Some.
Qed.

Lemma byte_at_short (buf : list byte) (i : nat) (b : byte) : length buf ≤ i → byte_at buf i b = false.
Proof.
  intros Hl. destruct (byte_at buf i b) eqn:E; [|done].
  apply byte_at_bound in E. lia.
Qed.

(** A byte that is not zero is found in the padded buffer where it is found
    in the bytes read. *)
Lemma byte_at_pad (w : list byte) (k i : nat) (b : byte) :
  Byte.eqb x00 b = false → byte_at (w ++ make k) i b = byte_at w i b.
Proof.
  intros Hb. unfold byte_at, make.
  destruct (decide (i < length w)) as [Hi|Hi].
  - by rewrite lookup_app_l.
  - rewrite lookup_app_r by lia. rewrite (lookup_ge_None_2 w) by lia.
    destruct (replicate k x00 !! (i - length w)) eqn:E; [|done].
    apply lookup_replicate in E as [-> _]. done.
Qed.

(** The length test in front of a matcher says nothing the comparison of
    its last byte does not say. *)
Ltac drop_length_test buf n :=
  let E := fresh "E" in
  destruct (n <? length buf) eqn:E; [done|];
  apply Nat.ltb_ge in E; rewrite (byte_at_short buf n) by lia;
  by rewrite !andb_false_r.

Lemma Jpeg_bytes (buf : list byte) :
  Jpeg buf = byte_at buf 0 xff && byte_at buf 1 xd8 && byte_at buf 2 xff.
Proof.
  unfold Jpeg. drop_length_test buf 2.
Qed.

Lemma Png_bytes (buf : list byte) :
  Png buf = byte_at buf 0 x89 && byte_at buf 1 x50 && byte_at buf 2 x4e && byte_at buf 3 x47.
Proof.
  unfold Png. drop_length_test buf 3.
Qed.

Lemma Gif_bytes (buf : list byte) :
  Gif buf = byte_at buf 0 x47 && byte_at buf 1 x49 && byte_at buf 2 x46.
Proof.
  unfold Gif. drop_length_test buf 2.
Qed.

Lemma Webp_bytes (buf : list byte) :
  Webp buf = byte_at buf 8 x57 && byte_at buf 9 x45 && byte_at buf 10 x42 && byte_at buf 11 x50.
Proof.
  unfold Webp. drop_length_test buf 11.
Qed.

Lemma Bmp_bytes (buf : list byte) : Bmp buf = byte_at buf 0 x42 && byte_at buf 1 x4d.
Proof.
  unfold Bmp. drop_length_test buf 1.
Qed.

(** None of the five signatures holds a zero byte, so the zeros behind a
    short file never complete one. *)
Lemma signature_match_pad (w : list byte) (k : nat) : signature_match (w ++ make k) = signature_match w.
Proof.
  unfold signature_match.
  rewrite !Jpeg_bytes, !Png_bytes, !Gif_bytes, !Webp_bytes, !Bmp_bytes.
  by rewrite !byte_at_pad.
Qed.

Lemma signature_match_nil : signature_match [] = false.
Proof. reflexivity. Qed.

Lemma fill_length (d : list byte) : length (fill d) = window.
Proof.
  unfold fill, make. rewrite length_app, length_replicate, length_take. lia.
Qed.

(** * The appends and prints of a piece of code *)

Lemma appends_app (c1 c2 : list op) : appends (c1 ++ c2) = appends c1 ++ appends c2.
Proof. unfold appends. apply bind_app. Qed.

Lemma appends_cons (o : op) (c : list op) : appends (o :: c) = op_appends o ++ appends c.
Proof. reflexivity. Qed.

Lemma prints_app (c1 c2 : list op) : prints (c1 ++ c2) = prints c1 ++ prints c2.
Proof. unfold prints. apply bind_app. Qed.

Lemma prints_cons (o : op) (c : list op) : prints (o :: c) = op_prints o ++ prints c.
Proof. reflexivity. Qed.

Lemma appends_Print (l : list msg) : appends (Print <$> l) = [].
Proof. induction l as [|m l IH]; [done|]. rewrite fmap_cons, appends_cons. exact IH. Qed.

Lemma prints_Print (l : list msg) : prints (Print <$> l) = l.
Proof.
  induction l as [|m l IH]; [done|].
  rewrite fmap_cons, prints_cons, IH. reflexivity.
Qed.

Lemma op_appends_Go (body : list op) : op_appends (Go body) = appends body.
Proof.
  simpl. induction body as [|o c IH]; [done|]. rewrite appends_cons, <- IH. reflexivity.
Qed.

Lemma op_prints_Go (body : list op) : op_prints (Go body) = prints body.
Proof.
  simpl. induction body as [|o c IH]; [done|]. rewrite prints_cons, <- IH. reflexivity.
Qed.

Section ClassifierFacts.
Context `{Filetype}.
Variable cfg : config.

Lemma isImageFile_readable p f :
  f_open_err f = false → f_read_err f = false → f_data f ≠ [] →
  (isImageFile cfg p f).1 = IsImage (fill (f_data f)).
Proof.
  intros Ho Hr Hd. unfold isImageFile, Read. rewrite Ho, Hr. simpl.
  destruct (f_data f) eqn:E; [done|]. simpl. done.
Qed.

Lemma isImageFile_empty p f :
  f_open_err f = false → f_read_err f = false → f_data f = [] →
  (isImageFile cfg p f).1 = if silence cfg then IsImage (make window) else false.
Proof.
  intros Ho Hr Hd. unfold isImageFile, Read. rewrite Ho, Hr, Hd. simpl.
  by destruct (silence cfg).
Qed.

(** What one file adds to the collection. *)
Lemma visit_file_appends location name f :
  appends (visit cfg location (Entry name false (File f)))
  = if (isImageFile cfg (Join location name) f).1 then [Join location name] else [].
Proof.
  unfold visit.
  destruct (isImageFile cfg (Join location name) f) as [b printed]. simpl.
  rewrite appends_app, appends_Print. by destruct b.
Qed.

Lemma isImageFile_path p q f : (isImageFile cfg p f).1 = (isImageFile cfg q f).1.
Proof.
  unfold isImageFile.
  destruct (f_open_err f && negb (silence cfg)); [done|].
  destruct (Read (negb (f_open_err f)) f) as [buf err].
  destruct (failed err && negb (silence cfg)); done.
Qed.

End ClassifierFacts.

(** C3, as the code has it: on a file that can be opened and read,
    [isImageFile] answers what the signature table answers on the 261-byte
    buffer, which holds the first 261 bytes of the file or, behind a
    shorter file, its bytes followed by zeros; an empty file is rejected
    (with [silence] on it is classified on the buffer of zeros, which the
    table has to reject).  For a table blind to those zeros this is the
    answer on the first 261 bytes, or on the whole of a shorter file.  A
    rejected file adds nothing to the collection, an accepted one its
    path. *)
Theorem isImageFile_window `{Filetype} (cfg : config) (p : path) (f : file) :
  f_open_err f = false →
  f_read_err f = false →
  (silence cfg = true → IsImage (make window) = false) →
  (f_data f ≠ [] → (isImageFile cfg p f).1 = IsImage (fill (f_data f)))
  ∧ (f_data f = [] → (isImageFile cfg p f).1 = false)
  ∧ ((∀ w, length w ≤ window → IsImage (w ++ make (window - length w)) = IsImage w) →
     IsImage [] = false →
     (isImageFile cfg p f).1 = IsImage (take window (f_data f)))
  ∧ (∀ location name,
       appends (visit cfg location (Entry name false (File f)))
       = if (isImageFile cfg p f).1 then [Join location name] else []).
Proof.
  intros Ho Hr Hzero.
  assert (Hfull : f_data f ≠ [] → (isImageFile cfg p f).1 = IsImage (fill (f_data f))).
  { intros Hd. by apply isImageFile_readable. }
  assert (Hempty : f_data f = [] → (isImageFile cfg p f).1 = false).
  { intros Hd. rewrite isImageFile_empty by done.
    destruct (silence cfg); [by apply Hzero | done]. }
  split; [done|]. split; [done|]. split.
  - intros Hpad Hnil. destruct (f_data f) as [|b d] eqn:Hd.
    + rewrite Hempty by done. by rewrite take_nil, Hnil.
    + rewrite Hfull by done. unfold fill. apply Hpad. rewrite length_take. lia.
  - intros location name. rewrite visit_file_appends.
    by rewrite (isImageFile_path cfg (Join location name) p).
Qed.

Lemma isImageFile_window_witness :
  (isImageFile (H:=signatures) loud ["a.jpg"] (a_file jpeg_bytes)).1
  = signature_match (fill jpeg_bytes)
  ∧ (isImageFile (H:=signatures) loud ["a.jpg"] (a_file jpeg_bytes)).1 = true.
Proof.
  split; [|reflexivity].
  destruct (isImageFile_window (H:=signatures) loud ["a.jpg"] (a_file jpeg_bytes))
    as (Hbuffer & _).
  - reflexivity.
  - reflexivity.
  - intros Hs. discriminate Hs.
  - apply Hbuffer. intros Hd. discriminate Hd.
Defined.

(** With a signature that ends in a zero byte, the zeros the buffer keeps
    behind a short file can complete it: [isImageFile] accepts a file of
    three bytes that the table, asked about those three bytes, rejects. *)
Lemma padding_completes_signature :
  f_open_err (a_file stub) = false
  ∧ f_read_err (a_file stub) = false
  ∧ (isImageFile (H:=with_ico) loud ["stub"] (a_file stub)).1 = true
  ∧ IsImage (Filetype:=with_ico) (take window stub) = false.
Proof. repeat split. Qed.

(** * Facts about the walk *)

Section WalkFacts.
Context `{Filetype}.
Variable cfg : config.

(** [search] on a directory it can list is the loop over the entries,
    one [visit] each, and the final wait. *)
Lemma search_Dir (location : path) (es : list dirent) :
  search cfg location (Dir false es) = (es ≫= visit cfg location) ++ [Wait].
Proof.
  simpl. induction es as [|[name info_err child] es IH]; [done|].
  rewrite bind_cons, <- app_assoc, <- IH. unfold visit.
  destruct info_err; [done|].
  destruct child as [f|err sub]; [|done].
  destruct (isImageFile cfg (Join location name) f) as [b l].
  by rewrite <- app_assoc.
Qed.

Lemma search_unlistable (location : path) (n : node) :
  listable n = false → search cfg location n = [Print (ReadDirFailed location)].
Proof. destruct n as [f|[] es]; done. Qed.

Lemma appends_search_Dir (location : path) (es : list dirent) :
  appends (search cfg location (Dir false es)) = es ≫= (λ e, appends (visit cfg location e)).
Proof.
  rewrite search_Dir, appends_app. simpl. rewrite app_nil_r.
  induction es as [|e es IH]; [done|].
  rewrite !bind_cons, appends_app. by rewrite IH.
Qed.

Lemma prints_search_Dir (location : path) (es : list dirent) :
  prints (search cfg location (Dir false es)) = es ≫= (λ e, prints (visit cfg location e)).
Proof.
  rewrite search_Dir, prints_app. simpl. rewrite app_nil_r.
  induction es as [|e es IH]; [done|].
  rewrite !bind_cons, prints_app. by rewrite IH.
Qed.

(** What a failing file makes [isImageFile] answer and print. *)
Lemma isImageFile_failing (p : path) (f : file) :
  f_open_err f || f_read_err f || bool_decide (f_data f = []) = true →
  isImageFile cfg p f =
    if silence cfg then
      (IsImage (make window),
       if debug cfg
       then [if IsImage (make window) then ImageFile p else NotImageFile p]
       else [])
    else (false, [if f_open_err f then OpenFailed p else ReadFailed p]).
Proof.
  intros Hf. unfold isImageFile, Read.
  destruct (f_open_err f) eqn:Ho; simpl.
  { by destruct (silence cfg). }
  destruct (f_read_err f) eqn:Hr; simpl.
  { by destruct (silence cfg). }
  simpl in Hf. apply bool_decide_eq_true in Hf. rewrite Hf. simpl.
  by destruct (silence cfg).
Qed.

End WalkFacts.

(** C5, as the code has it: an entry that fails adds nothing to the
    collection and leaves what the walk does with the other entries of
    its directory as it is, whatever the reporting mode; the failure is
    printed on the error stream when it is a failing [Info] call or a
    directory that cannot be listed, and, for a file that cannot be opened
    or read, when [silence] is off.  With [silence] on such a file is
    classified on the untouched buffer of zeros, which the signature table
    has to reject. *)
Theorem failing_entry_skipped `{Filetype} (cfg : config) (location : path)
    (es1 es2 : list dirent) (e : dirent) :
  failing e = true →
  (silence cfg = true → IsImage (make window) = false) →
  let walked := search cfg location (Dir false (es1 ++ e :: es2)) in
  let others := search cfg location (Dir false (es1 ++ es2)) in
  appends (visit cfg location e) = []
  ∧ appends walked = appends others
  ∧ prints walked
    = prints (es1 ≫= visit cfg location) ++ prints (visit cfg location e)
      ++ prints (es2 ≫= visit cfg location)
  ∧ prints others
    = prints (es1 ≫= visit cfg location) ++ prints (es2 ≫= visit cfg location)
  ∧ prints (visit cfg location e)
    = match e with
      | Entry name true _ => [InfoFailed location name]
      | Entry name false (Dir _ _) => [ReadDirFailed (Join location name)]
      | Entry name false (File f) =>
          if silence cfg
          then (if debug cfg then [NotImageFile (Join location name)] else [])
          else [if f_open_err f then OpenFailed (Join location name)
                else ReadFailed (Join location name)]
      end.
Proof.
  intros Hfail Hzero walked others.
  assert (Hvisit : appends (visit cfg location e) = []
    ∧ prints (visit cfg location e)
      = match e with
        | Entry name true _ => [InfoFailed location name]
        | Entry name false (Dir _ _) => [ReadDirFailed (Join location name)]
        | Entry name false (File f) =>
            if silence cfg
            then (if debug cfg then [NotImageFile (Join location name)] else [])
            else [if f_open_err f then OpenFailed (Join location name)
                  else ReadFailed (Join location name)]
        end).
  { destruct e as [name [] child]; [done|].
    destruct child as [f|err sub]; simpl in Hfail.
    - unfold visit. rewrite isImageFile_failing by done.
      destruct (silence cfg); [rewrite Hzero by done|]; simpl; rewrite ?app_nil_r.
      + rewrite appends_Print, prints_Print. by destruct (debug cfg).
      + done.
    - subst err. done. }
  destruct Hvisit as [Ha Hp].
  unfold walked, others. rewrite !search_Dir, !appends_app, !prints_app.
  rewrite !bind_app, !bind_cons, !appends_app, !prints_app.
  rewrite Ha. simpl. rewrite !app_nil_r. rewrite <- Hp. done.
Qed.

Lemma failing_entry_skipped_witness :
  failing (Entry "x.jpg" false (File (locked jpeg_bytes))) = true
  ∧ appends (search (H:=signatures) loud []
               (Dir false [Entry "a.jpg" false (File (a_file jpeg_bytes));
                           Entry "x.jpg" false (File (locked jpeg_bytes));
                           Entry "c.png" false (File (a_file png_bytes))]))
    = appends (search (H:=signatures) loud []
                 (Dir false [Entry "a.jpg" false (File (a_file jpeg_bytes));
                             Entry "c.png" false (File (a_file png_bytes))])).
Proof.
  split; [reflexivity|].
  apply (failing_entry_skipped (H:=signatures) loud []
           [Entry "a.jpg" false (File (a_file jpeg_bytes))]
           [Entry "c.png" false (File (a_file png_bytes))]
           (Entry "x.jpg" false (File (locked jpeg_bytes)))).
  - reflexivity.
  - discriminate.
Defined.

(** With [silence] on, a file that cannot be opened leaves no line on the
    error stream. *)
Lemma silent_failure_unreported :
  failing (Entry "x.jpg" false (File (locked jpeg_bytes))) = true
  ∧ ¬ ∃ m, m ∈ prints (search (H:=signatures) quiet []
                         (Dir false [Entry "x.jpg" false (File (locked jpeg_bytes))]))
           ∧ on_errStream m = true.
Proof.
  split; [reflexivity|].
  intros (m & Hm & _). vm_compute in Hm. by apply elem_of_nil in Hm.
Qed.
(** * Facts about the run *)

(** C8, as the code has it: when [os.Stat] fails on the search root the
    run prints that the location is invalid and ends with status 1, under
    every schedule, with no line of the walk; a root that [os.Stat] accepts
    and [os.ReadDir] cannot list is left to the walk, which reports it, and
    the run ends with status 0. *)
Theorem root_check `{Filetype} `{Zip} `{Http} (cfg : config) (w : world) :
  (root w = None →
   ∀ sched, run cfg w sched = Some (1%Z, [InvalidLocation]))
  ∧ (∀ n, root w = Some n → listable n = false →
     run cfg w [[]]
     = Some (0%Z, [Walked (ReadDirFailed (location cfg)); NoImageFiles])).
Proof.
  split.
  - intros Hroot sched. unfold run. by rewrite Hroot.
  - intros n Hroot Hn. unfold run. rewrite Hroot.
    rewrite search_unlistable by done. reflexivity.
Qed.

Lemma root_check_witness :
  run (H:=signatures) (H0:=stored) (H1:=accepting) loud
    (bare None) racing
  = Some (1%Z, [InvalidLocation]).
Proof.
  apply (proj1 (root_check (H:=signatures) (H0:=stored) (H1:=accepting) loud
                  (bare None))).
  reflexivity.
Defined.

(** A search root that is there and cannot be listed: the run is not
    fatal. *)
Lemma unlistable_root_exits_zero :
  listable (Dir true []) = false
  ∧ run (H:=signatures) (H0:=stored) (H1:=accepting) loud
      (bare (Some (Dir true []))) [[]]
    = Some (0%Z, [Walked (ReadDirFailed []); NoImageFiles]).
Proof. split; reflexivity. Qed.
(** * Facts about the archive builder *)

Section ArchiveFacts.
Context `{Zip}.

Lemma addToZip_zippable (d : disk) (p : path) (zw : list entry) :
  zippable d p = true →
  ∃ f, d p = Some f ∧ addToZip d p zw = (zw ++ [entry_of p f], None).
Proof.
  unfold zippable, addToZip. destruct (d p) as [f|]; [|done].
  intros Hz. apply andb_true_iff in Hz as [Hz Hc].
  apply andb_true_iff in Hz as [Ho Hs].
  apply negb_true_iff in Ho, Hs. apply bool_decide_eq_true in Hc.
  exists f. split; [done|]. by rewrite Ho, Hs, Hc.
Qed.

Lemma addToZip_unzippable (d : disk) (p : path) (zw : list entry) :
  zippable d p = false →
  ∃ zw' e, addToZip d p zw = (zw', Some e)
           ∧ (zw' = zw ∨ ∃ x, zw' = zw ++ [x] ∧ Name (header x) = p).
Proof.
  unfold zippable, addToZip. destruct (d p) as [f|]; [|by eauto].
  destruct (f_open_err f); [by eauto|].
  destruct (f_stat_err f); [by eauto|].
  destruct (f_copy_err f) as [n|]; [|done].
  intros _. eexists _, _. split; [done|]. right. by eexists.
Qed.

(** The loop over paths that all go in: one entry each, in order. *)
Lemma add_each_zippable (d : disk) (paths : list path) (zw : list entry) :
  Forall (λ p, zippable d p = true) paths →
  ∃ es, add_each d paths zw = (zw ++ es, None)
        ∧ Forall2 (λ p e, ∃ f, d p = Some f ∧ e = entry_of p f) paths es.
Proof.
  intros Hall. revert zw.
  induction Hall as [|p paths Hp _ IH]; intros zw.
  - exists []. by rewrite app_nil_r.
  - destruct (addToZip_zippable d p zw Hp) as (f & Hf & Hadd).
    destruct (IH (zw ++ [entry_of p f])) as (es & Hes & Hrel).
    exists (entry_of p f :: es). simpl. rewrite Hadd, Hes, <- app_assoc.
    split; [done|]. constructor; [by exists f | done].
Qed.

(** The loop stops at the first path that does not go in. *)
Lemma add_each_stops (d : disk) (l1 l2 : list path) (bad : path) (zw : list entry) :
  Forall (λ p, zippable d p = true) l1 →
  zippable d bad = false →
  ∃ zw' e, add_each d (l1 ++ bad :: l2) zw = (zw', Some e)
           ∧ add_each d (l1 ++ [bad]) zw = (zw', Some e)
           ∧ ∃ es, zw' = zw ++ es ∧ (Name ∘ header <$> es) `prefix_of` (l1 ++ [bad]).
Proof.
  intros Hall Hbad. revert zw.
  induction Hall as [|p paths Hp _ IH]; intros zw.
  - destruct (addToZip_unzippable d bad zw Hbad) as (zw' & e & Hadd & Hzw).
    exists zw', e. simpl. rewrite Hadd. do 2 (split; [done|]).
    destruct Hzw as [->|(x & -> & Hx)].
    + exists []. rewrite app_nil_r. split; [done|]. apply prefix_nil.
    + exists [x]. split; [done|]. simpl. by rewrite Hx.
  - destruct (addToZip_zippable d p zw Hp) as (f & Hf & Hadd).
    destruct (IH (zw ++ [entry_of p f])) as (zw' & e & H1 & H2 & es & -> & Hpre).
    exists (zw ++ entry_of p f :: es), e. simpl. rewrite Hadd, H1, H2, <- !app_assoc.
    do 2 (split; [done|]). exists (entry_of p f :: es). split; [done|].
    simpl. by apply prefix_cons.
Qed.

Lemma reaches_refl (d : disk) (p : path) : reaches d p p = true.
Proof. unfold reaches. by rewrite bool_decide_eq_true_2. Qed.

Lemma reaches_other (d : disk) (p q : path) : reaches d p q = false → p ≠ q.
Proof. intros Hr ->. by rewrite reaches_refl in Hr. Qed.

(** [os.Create] leaves every file but the one at [output] as it is. *)
Lemma Create_other (output p : path) (d : disk) :
  reaches d p output = false → Create output d p = d p.
Proof. intros Hne. unfold Create. simpl. by rewrite Hne. Qed.

Lemma zippable_Create (d : disk) (output p : path) :
  reaches d p output = false → zippable (Create output d) p = zippable d p.
Proof. intros Hne. unfold zippable. by rewrite Create_other. Qed.

Lemma uint32_small (t : Z) : (0 ≤ t < 2 ^ 32)%Z → uint32 t = t.
Proof. intros Ht. unfold uint32. by apply Z.mod_small. Qed.

Lemma entry_names (d : disk) (paths : list path) (es : list entry) :
  Forall2 (λ p e, ∃ f, d p = Some f ∧ e = entry_of p f) paths es →
  Name ∘ header <$> es = paths.
Proof.
  induction 1 as [|p e paths es (f & _ & ->) _ IH]; [done|].
  rewrite fmap_cons, IH. reflexivity.
Qed.

End ArchiveFacts.

(** C9, as the code has it: when the output file can be created and every
    path can be opened, stat'ed and copied, [zipImages] returns no error
    and the archive holds one entry per path, in the order given, named by
    the path as it is and marked Deflate; the names of the archive are the
    list of paths.  For a path that does not reach the output file, the
    entry has the size of the file's metadata and its modification time as
    the archive stores it, in 32 bits: the time itself when it lies from
    1970 up to 2106. *)
Theorem archive_entries `{Zip} (d : disk) (paths : list path) (output : path) :
  Forall (λ p, zippable (Create output d) p = true) paths →
  ∃ es, zipImages false d paths output = (Some es, None)
        ∧ Name ∘ header <$> es = paths
        ∧ Forall2 (λ p e,
            Name (header e) = p
            ∧ Method (header e) = Deflate
            ∧ (reaches d p output = false →
               ∃ f, d p = Some f
                    ∧ Modified (header e) = (fi_modtime (Stat p f) mod 2 ^ 32)%Z
                    ∧ ((0 ≤ fi_modtime (Stat p f) < 2 ^ 32)%Z →
                       Modified (header e) = fi_modtime (Stat p f))
                    ∧ UncompressedSize64 (header e) = fi_size (Stat p f))) paths es.
Proof.
  intros Hall. unfold zipImages.
  destruct (add_each_zippable (Create output d) paths [] Hall) as (es & Hes & Hrel).
  rewrite Hes. simpl. exists es. split; [done|].
  split; [by eapply entry_names|].
  eapply Forall2_impl; [exact Hrel|].
  intros p e (f & Hf & ->). do 2 (split; [done|]). intros Hp.
  rewrite Create_other in Hf by done. exists f. split; [done|].
  split; [done|]. split; [|done]. intros Ht. by apply uint32_small.
Qed.

Lemma archive_entries_witness :
  ∃ e, zipImages (H:=stored) false album [["photo.jpg"]] ["images.zip"] = (Some [e], None)
       ∧ Name (header e) = ["photo.jpg"]
       ∧ Method (header e) = Deflate
       ∧ Modified (header e) = 0%Z
       ∧ UncompressedSize64 (header e) = 10%Z.
Proof.
  destruct (archive_entries (H:=stored) album [["photo.jpg"]] ["images.zip"])
    as (es & Hes & _ & Hrel).
  - repeat constructor.
  - apply Forall2_cons_inv_l in Hrel as (e & es' & (Hname & Hm & Hf) & Hnil & ->).
    apply Forall2_nil_inv_l in Hnil as ->.
    destruct (Hf eq_refl) as (f & Hd & _ & Hsmall & Hsize).
    injection Hd as <-. exists e. do 3 (split; [done|]).
    split; [|exact Hsize]. apply Hsmall. simpl. lia.
Defined.

(** A picture last modified one second before 1970 goes into the archive
    with the time 4294967295: the writer keeps [uint32(Modified.Unix())]. *)
Lemma archive_wraps_time :
  attic ["old.jpg"] = Some early
  ∧ fi_modtime (Stat ["old.jpg"] early) = (-1)%Z
  ∧ reaches attic ["old.jpg"] ["images.zip"] = false
  ∧ ∃ e, zipImages (H:=stored) false attic [["old.jpg"]] ["images.zip"] = (Some [e], None)
         ∧ Name (header e) = ["old.jpg"]
         ∧ Modified (header e) = 4294967295%Z
         ∧ Modified (header e) ≠ fi_modtime (Stat ["old.jpg"] early).
Proof.
  do 3 (split; [reflexivity|]).
  eexists. split; [reflexivity|]. split; [reflexivity|]. split; [reflexivity|].
  discriminate.
Qed.

Lemma never_met {A B : Type} `{EqDecision B} (f : A → B) (l : list A) (x : B) :
  x ∉ f <$> l → filter (λ a, f a = x) l = [].
Proof.
  induction l as [|a l IH]; [done|].
  rewrite fmap_cons. intros [Hne Hl]%not_elem_of_cons.
  rewrite filter_cons, decide_False by done. by apply IH.
Qed.

(** An element of a list without repetition is met once. *)
Lemma met_once {A B : Type} `{EqDecision B} (f : A → B) (l : list A) (x : B) :
  NoDup (f <$> l) → x ∈ f <$> l → length (filter (λ a, f a = x) l) = 1.
Proof.
  induction l as [|a l IH]; intros Hnd Hin.
  - by apply elem_of_nil in Hin.
  - rewrite fmap_cons in Hnd, Hin. apply NoDup_cons in Hnd as [Ha Hnd].
    rewrite filter_cons. destruct (decide (f a = x)) as [<-|Hne].
    + by rewrite never_met.
    + apply elem_of_cons in Hin as [->|Hin]; [done|]. by apply IH.
Qed.

(** C2, as the code has it: provided no path of the list reaches the file
    the archive is written to (the output path itself, a link to it or
    another spelling of it), and every file can be opened, stat'ed and
    copied, the archive has one entry per path, named by it, and extracting
    the entry gives back the bytes of the file; a path that occurs once in
    the list is the name of one entry. *)
Theorem archive_round_trip `{Zip} (d : disk) (paths : list path) (output : path) :
  (∀ raw, inflate (deflate raw) = Some raw) →
  Forall (λ p, reaches d p output = false) paths →
  Forall (λ p, zippable d p = true) paths →
  ∃ es, zipImages false d paths output = (Some es, None)
        ∧ Forall2 (λ p e, Name (header e) = p
                          ∧ ∃ f, d p = Some f ∧ extract e = Some (f_data f)) paths es
        ∧ (NoDup paths →
           ∀ p, p ∈ paths → length (filter (λ e, Name (header e) = p) es) = 1).
Proof.
  intros Hcodec Hout Hall.
  assert (Hall' : Forall (λ p, zippable (Create output d) p = true) paths).
  { rewrite Forall_forall in Hall, Hout. apply Forall_forall. intros p Hp.
    rewrite zippable_Create; auto. }
  unfold zipImages.
  destruct (add_each_zippable (Create output d) paths [] Hall') as (es & Hes & Hrel).
  rewrite Hes. simpl. exists es. split; [done|].
  pose proof (entry_names _ _ _ Hrel) as Hnames.
  split.
  - clear Hes Hnames Hall Hall'.
    induction Hrel as [|p e l es' (f & Hf & ->) _ IH]; [constructor|].
    apply Forall_cons in Hout as [Hp Hout].
    constructor; [|by apply IH].
    split; [done|]. exists f. split.
    + rewrite <- Hf. symmetry. by apply Create_other.
    + unfold extract. simpl. apply Hcodec.
  - intros Hnd p Hp. apply (met_once (Name ∘ header)); rewrite Hnames; done.
Qed.

Lemma archive_round_trip_witness :
  ∃ es, zipImages (H:=stored) false album [["photo.jpg"]] ["images.zip"] = (Some es, None)
        ∧ Forall2 (λ p e, Name (header e) = p
                          ∧ ∃ f, album p = Some f
                                 ∧ extract (H:=stored) e = Some (f_data f))
            [["photo.jpg"]] es.
Proof.
  destruct (archive_round_trip (H:=stored) album [["photo.jpg"]] ["images.zip"])
    as (es & Hes & Hrel & _).
  - reflexivity.
  - repeat constructor.
  - repeat constructor.
  - exists es. by split.
Defined.

(** Written over the picture it is to hold, the archive has an entry with
    the picture's name and none of its bytes: the walk finds [photo.jpg],
    [os.Create] empties it, and the entry is read from what is left. *)
Lemma archive_over_its_input :
  let d := disk_of (location over_photo) shoebox in
  elements <$> walk alone (search (H:=signatures) over_photo [] (Dir false
                 [Entry "photo.jpg" false (File (a_file jpeg_bytes))]))
  = Some [["photo.jpg"]]
  ∧ d ["photo.jpg"] = Some (a_file jpeg_bytes)
  ∧ ∃ e, zipImages (H:=stored) (create_err shoebox) d [["photo.jpg"]] (outputZip over_photo)
         = (Some [e], None)
         ∧ Name (header e) = ["photo.jpg"]
         ∧ extract (H:=stored) e = Some []
         ∧ extract (H:=stored) e ≠ Some jpeg_bytes.
Proof.
  split; [reflexivity|]. split; [reflexivity|].
  eexists. split; [reflexivity|]. split; [reflexivity|]. split; [reflexivity|].
  discriminate.
Qed.

(** The same under another name: with the archive written to [copy.jpg],
    a hard link to [photo.jpg], the output path is not in the list, and
    still the entry of [photo.jpg] has none of the picture's bytes. *)
Lemma archive_over_a_link :
  (["copy.jpg"] ∉ [["photo.jpg"]])
  ∧ linked ["photo.jpg"] = Some (a_file jpeg_bytes)
  ∧ reaches linked ["photo.jpg"] ["copy.jpg"] = true
  ∧ ∃ e, zipImages (H:=stored) false linked [["photo.jpg"]] ["copy.jpg"] = (Some [e], None)
         ∧ Name (header e) = ["photo.jpg"]
         ∧ extract (H:=stored) e = Some [].
Proof.
  split; [intros Hin; apply list_elem_of_singleton in Hin; discriminate|].
  do 2 (split; [reflexivity|]).
  eexists. split; [reflexivity|]. by split.
Qed.

(** * Facts about the delivery *)

Section DeliveryFacts.
Context `{Filetype} `{Zip} `{Http}.
Variable cfg : config.
Variable w : world.

Lemma run_walked (sched : list (list nat)) (n : node) (m : memory) :
  root w = Some n →
  walk sched (search cfg (location cfg) n) = Some m →
  run cfg w sched
  = Some ((deliver cfg w (elements m)).1,
          (Walked <$> printed m) ++ (deliver cfg w (elements m)).2).
Proof.
  intros Hroot Hwalk. unfold run. rewrite Hroot, Hwalk. simpl.
  by destruct (deliver cfg w (elements m)).
Qed.

Lemma deliver_build_error (imgs : list path) (partial : option (list entry)) (e : error) :
  imgs ≠ [] →
  zipImages (create_err w) (disk_of (location cfg) w) imgs (outputZip cfg)
  = (partial, Some e) →
  deliver cfg w imgs = (1%Z, [ZippingFailed e]).
Proof.
  intros Hne Hzip. unfold deliver. rewrite Hzip.
  destruct imgs; done.
Qed.

(** After a build without error the archive file is there and its size is
    the number of bytes of the encoded entries. *)
Lemma deliver_built (imgs : list path) (es : list entry) :
  imgs ≠ [] →
  zipImages (create_err w) (disk_of (location cfg) w) imgs (outputZip cfg)
  = (Some es, None) →
  deliver cfg w imgs =
    let zipped := Zipped (length imgs) (outputZip cfg) in
    let d' := with_archive cfg (Some es) (disk_of (location cfg) w) in
    let size := Z.of_nat (length (encode es)) in
    if (limit <? size)%Z then (1%Z, [zipped; TooLarge size])
    else
      let '(err, calls) :=
        sendMessageToTelegram (message cfg) (telegramToken cfg) (telegramChatID cfg) in
      match err with
      | Some e => (1%Z, zipped :: calls ++ [MessageFailed e])
      | None =>
          if nonempty (telegramToken cfg) && nonempty (telegramChatID cfg)
             && nonempty (message cfg)
          then
            let '(err', calls') :=
              sendFileToTelegram d' (outputZip cfg) (message cfg)
                (telegramToken cfg) (telegramChatID cfg) in
            match err' with
            | Some e => (1%Z, zipped :: calls ++ calls' ++ [FileFailed e])
            | None =>
                (0%Z, zipped :: calls ++ calls'
                        ++ [Sent (outputZip cfg) (telegramChatID cfg)])
            end
          else (0%Z, zipped :: calls)
      end.
Proof.
  intros Hne Hzip. unfold deliver. rewrite Hzip.
  destruct imgs as [|p imgs]; [done|].
  cbv beta iota delta [Nat.ltb Nat.leb length with_archive lookup].
  rewrite reaches_refl. reflexivity.
Qed.

End DeliveryFacts.

(** C6: when the paths up to some path can all be opened, stat'ed and
    copied and that path cannot, [zipImages] returns an error, the same
    whatever follows the path in the list, and the archive holds no entry
    of a later path; the run prints the error and ends with status 1
    without a line of the delivery. *)
Theorem build_failure_is_fatal `{Filetype} `{Zip} `{Http} (cfg : config) (w : world)
    (sched : list (list nat)) (n : node) (m : memory) (l1 l2 : list path) (bad : path) :
  let d := Create (outputZip cfg) (disk_of (location cfg) w) in
  root w = Some n →
  walk sched (search cfg (location cfg) n) = Some m →
  elements m = l1 ++ bad :: l2 →
  create_err w = false →
  Forall (λ p, zippable d p = true) l1 →
  zippable d bad = false →
  ∃ partial e,
    zipImages false (disk_of (location cfg) w) (l1 ++ bad :: l2) (outputZip cfg)
    = (Some partial, Some e)
    ∧ zipImages false (disk_of (location cfg) w) (l1 ++ [bad]) (outputZip cfg)
      = (Some partial, Some e)
    ∧ (Name ∘ header <$> partial) `prefix_of` (l1 ++ [bad])
    ∧ run cfg w sched = Some (1%Z, (Walked <$> printed m) ++ [ZippingFailed e]).
Proof.
  intros d Hroot Hwalk Hm Hcreate Hall Hbad.
  destruct (add_each_stops d l1 l2 bad [] Hall Hbad)
    as (zw & e & Hfull & Hcut & es & -> & Hpre).
  exists es, e. unfold zipImages. fold d. rewrite Hfull, Hcut. simpl.
  do 3 (split; [done|]).
  rewrite (run_walked cfg w sched n m Hroot Hwalk).
  rewrite (deliver_build_error cfg w (elements m) (Some es) e); [done| |].
  - rewrite Hm. by destruct l1.
  - rewrite Hm, Hcreate. unfold zipImages. fold d. by rewrite Hfull.
Qed.

Lemma build_failure_is_fatal_witness :
  ∃ e, run (H:=signatures) (H0:=stored) (H1:=accepting) to_chat
         (bare (Some worn)) alone
       = Some (1%Z, [Walked (Found ["old.jpg"]); ZippingFailed e]).
Proof.
  destruct (build_failure_is_fatal (H:=signatures) (H0:=stored) (H1:=accepting) to_chat
              (bare (Some worn)) alone worn
              {| heap := [[]; [["old.jpg"]]];
                 imageFiles := {| ptr := 1; len := 1; cap := 1 |};
                 printed := [Found ["old.jpg"]] |}
              [] [] ["old.jpg"])
    as (partial & e & _ & _ & _ & Hrun).
  - reflexivity.
  - reflexivity.
  - reflexivity.
  - reflexivity.
  - constructor.
  - reflexivity.
  - exists e. exact Hrun.
Defined.
(** C7: when the walk has found something, the archive is built and its
    file is larger than 20 MiB, the run prints the size-limit failure and
    ends with status 1, and no request has left the program. *)
Theorem oversize_archive_not_sent `{Filetype} `{Zip} `{Http} (cfg : config) (w : world)
    (sched : list (list nat)) (n : node) (m : memory) (es : list entry) :
  root w = Some n →
  walk sched (search cfg (location cfg) n) = Some m →
  elements m ≠ [] →
  zipImages (create_err w) (disk_of (location cfg) w) (elements m) (outputZip cfg)
  = (Some es, None) →
  (20 * 1024 * 1024 < Z.of_nat (length (encode es)))%Z →
  ∃ lines,
    run cfg w sched = Some (1%Z, lines)
    ∧ lines = (Walked <$> printed m)
              ++ [Zipped (length (elements m)) (outputZip cfg);
                  TooLarge (Z.of_nat (length (encode es)))]
    ∧ Forall (λ l, is_call l = false) lines.
Proof.
  intros Hroot Hwalk Hne Hzip Hsize.
  eexists. split; [|split; [reflexivity|]].
  - rewrite (run_walked cfg w sched n m Hroot Hwalk).
    rewrite (deliver_built cfg w (elements m) es Hne Hzip).
    cbv zeta. fold limit in Hsize. apply Z.ltb_lt in Hsize. rewrite Hsize. reflexivity.
  - apply Forall_app. split.
    + apply Forall_fmap. by apply Forall_true.
    + by repeat constructor.
Qed.

Lemma oversize_archive_not_sent_witness :
  ∃ lines,
    run (H:=signatures) (H0:=bulky) (H1:=accepting) to_chat
      (bare (Some single)) alone
    = Some (1%Z, lines)
    ∧ Forall (λ l, is_call l = false) lines.
Proof.
  destruct (oversize_archive_not_sent (H:=signatures) (H0:=bulky) (H1:=accepting) to_chat
              (bare (Some single)) alone single
              {| heap := [[]; [["a.jpg"]]];
                 imageFiles := {| ptr := 1; len := 1; cap := 1 |};
                 printed := [Found ["a.jpg"]] |}
              [entry_of (H:=bulky) ["a.jpg"] (a_file jpeg_bytes)])
    as (lines & Hrun & _ & Hcalls).
  - reflexivity.
  - reflexivity.
  - discriminate.
  - reflexivity.
  - cbv beta iota delta [encode bulky]. rewrite length_replicate.
    rewrite Z2Nat.id; lia.
  - exists lines. by split.
Defined.

(** C10: when the walk has found something and the archive is built within
    the limit, the run goes on to [sendMessageToTelegram] whatever the
    token and the message are: with a chat ID the request leaves the
    program; with the empty chat ID the call fails before any request and
    the run ends with status 1, the archive built.  Status 0 therefore
    needs a chat ID. *)
Theorem message_needs_chat_id `{Filetype} `{Zip} `{Http} (cfg : config) (w : world)
    (sched : list (list nat)) (n : node) (m : memory) (es : list entry) :
  root w = Some n →
  walk sched (search cfg (location cfg) n) = Some m →
  elements m ≠ [] →
  zipImages (create_err w) (disk_of (location cfg) w) (elements m) (outputZip cfg)
  = (Some es, None) →
  (Z.of_nat (length (encode es)) ≤ 20 * 1024 * 1024)%Z →
  ∃ status lines,
    run cfg w sched = Some (status, lines)
    ∧ (telegramChatID cfg = EmptyString →
       status = 1%Z
       ∧ lines = (Walked <$> printed m)
                 ++ [Zipped (length (elements m)) (outputZip cfg);
                     MessageFailed EmptyChatID])
    ∧ (telegramChatID cfg ≠ EmptyString →
       Called (sendMessage (telegramToken cfg) (telegramChatID cfg) (message cfg))
       ∈ lines)
    ∧ (status = 0%Z → telegramChatID cfg ≠ EmptyString).
Proof.
  intros Hroot Hwalk Hne Hzip Hsize.
  rewrite (run_walked cfg w sched n m Hroot Hwalk).
  rewrite (deliver_built cfg w (elements m) es Hne Hzip).
  cbv zeta. fold limit in Hsize.
  apply Z.ltb_ge in Hsize. rewrite Hsize.
  unfold sendMessageToTelegram.
  destruct (String.eqb (telegramChatID cfg) EmptyString) eqn:Hchat.
  - apply String.eqb_eq in Hchat. eexists _, _. split; [reflexivity|].
    simpl. split; [done|]. split; [done|]. done.
  - apply String.eqb_neq in Hchat.
    set (r := sendMessage (telegramToken cfg) (telegramChatID cfg) (message cfg)).
    assert (Hin : ∀ rest, Called r ∈
              (Walked <$> printed m)
              ++ Zipped (length (elements m)) (outputZip cfg) :: [Called r] ++ rest).
    { intros rest. apply elem_of_app. right. apply elem_of_cons. right.
      apply elem_of_app. left. apply list_elem_of_singleton. done. }
    destruct (reply r) as [e|].
    { eexists _, _. split; [reflexivity|]. simpl.
      split; [done|]. split; [|done]. intros _. apply (Hin [_]). }
    destruct (nonempty (telegramToken cfg) && nonempty (telegramChatID cfg)
              && nonempty (message cfg)).
    + destruct (sendFileToTelegram _ _ _ _ _) as [[e|] calls'].
      * eexists _, _. split; [reflexivity|]. simpl.
        split; [done|]. split; [|done]. intros _. apply (Hin (calls' ++ [_])).
      * eexists _, _. split; [reflexivity|]. simpl.
        split; [done|]. split; [|done]. intros _. apply (Hin (calls' ++ [_])).
    + eexists _, _. split; [reflexivity|]. simpl.
      split; [done|]. split; [|done]. intros _. apply (Hin []).
Qed.

Lemma message_needs_chat_id_witness :
  run (H:=signatures) (H0:=stored) (H1:=accepting) loud
    (bare (Some single)) alone
  = Some (1%Z, [Walked (Found ["a.jpg"]); Zipped 1 ["images.zip"];
                MessageFailed EmptyChatID]).
Proof.
  destruct (message_needs_chat_id (H:=signatures) (H0:=stored) (H1:=accepting) loud
              (bare (Some single)) alone single
              {| heap := [[]; [["a.jpg"]]];
                 imageFiles := {| ptr := 1; len := 1; cap := 1 |};
                 printed := [Found ["a.jpg"]] |}
              [entry_of (H:=stored) ["a.jpg"] (a_file jpeg_bytes)])
    as (status & lines & Hrun & Hempty & _ & _).
  - reflexivity.
  - reflexivity.
  - discriminate.
  - reflexivity.
  - vm_compute. discriminate.
  - destruct (Hempty eq_refl) as [-> ->]. exact Hrun.
Defined.
(** * Facts about goroutines and the shared slice *)

Lemma run_schedule_app (s1 s2 : list (list nat)) (m : memory) (g : goroutine) :
  run_schedule (s1 ++ s2) m g
  = match run_schedule s1 m g with
    | Some (m', g') => run_schedule s2 m' g'
    | None => None
    end.
Proof.
  revert m g. induction s1 as [|who s1 IH]; intros m g; [done|].
  simpl. destruct (step_at who m g) as [[m' g']|]; [apply IH | done].
Qed.

(** Turns of the i-th goroutine launched leave the launching one as it is. *)
Lemma run_schedule_kid (s : list (list nat)) (i : nat) (m : memory)
    (code : list op) (st : stage) (kids : list goroutine) (k : goroutine) :
  kids !! i = Some k →
  run_schedule (cons i <$> s) m (Goroutine code st kids)
  = match run_schedule s m k with
    | Some (m', k') => Some (m', Goroutine code st (<[i := k']> kids))
    | None => None
    end.
Proof.
  revert m kids k. induction s as [|who s IH]; intros m kids k Hk.
  - simpl. by rewrite list_insert_id.
  - rewrite fmap_cons. simpl. rewrite Hk.
    destruct (step_at who m k) as [[m1 k1]|]; [|done].
    rewrite (IH m1 (<[i := k1]> kids) k1).
    + destruct (run_schedule s m1 k1) as [[m' k']|]; [|done].
      by rewrite list_insert_insert_eq.
    + apply list_lookup_insert_eq. by eapply lookup_lt_Some.
Qed.

Lemma nextslicecap_one_more (c : nat) : S c ≤ nextslicecap (S c) c.
Proof.
  unfold nextslicecap.
  destruct (2 * c <? S c) eqn:E1; [lia|].
  apply Nat.ltb_ge in E1.
  destruct (c <? 256) eqn:E2; [lia|].
  assert (1 ≤ (c + 3 * 256) / 4) by (apply Nat.div_le_lower_bound; lia).
  lia.
Qed.

Lemma array_fresh (h : list (list path)) (a : list path) : array (h ++ [a]) (length h) = a.
Proof. unfold array. rewrite lookup_app_r by lia. by rewrite Nat.sub_diag. Qed.

(** [append] on a sound slice adds the element behind the others. *)
Lemma append_sound (h : list (list path)) (s : slice) (p : path) :
  len s ≤ cap s →
  length (array h (ptr s)) = cap s →
  let '(h', s') := append h s p in
  len s' ≤ cap s'
  ∧ length (array h' (ptr s')) = cap s'
  ∧ take (len s') (array h' (ptr s')) = take (len s) (array h (ptr s)) ++ [p].
Proof.
  intros Hle Hlen. unfold append.
  destruct (len s <? cap s) eqn:E.
  - apply Nat.ltb_lt in E. simpl.
    assert (Hptr : ptr s < length h).
    { destruct (decide (ptr s < length h)) as [|Hge]; [done|].
      unfold array in Hlen. rewrite lookup_ge_None_2 in Hlen by lia.
      simpl in Hlen. lia. }
    destruct (lookup_lt_is_Some_2 h (ptr s) Hptr) as [a Ha].
    unfold array in *. rewrite Ha in *. simpl in *.
    rewrite list_lookup_alter_eq, Ha. simpl.
    split; [lia|]. split; [by rewrite length_insert|].
    rewrite (take_S_r _ _ p).
    + by rewrite take_insert_ge.
    + apply list_lookup_insert_eq. lia.
  - apply Nat.ltb_ge in E. assert (Heq : len s = cap s) by lia. simpl.
    pose proof (nextslicecap_one_more (cap s)) as Hc. rewrite <- Heq in Hc.
    rewrite array_fresh.
    set (a := array h (ptr s)) in *.
    set (c := nextslicecap (S (len s)) (len s)) in *. rewrite <- Heq.
    assert (Ht : length (take (len s) a) = len s) by (rewrite length_take; lia).
    split; [done|]. split.
    + rewrite length_app, Ht. simpl. rewrite length_replicate. fold c. lia.
    + rewrite (cons_middle p), app_assoc.
      apply take_app_length'. rewrite length_app, Ht. simpl. lia.
Qed.
(** Induction over code, through the bodies of the goroutines. *)
Lemma op_nested_ind (P : op → Prop) :
  (∀ m, P (Print m)) →
  (∀ p, P (Append p)) →
  (∀ body, Forall P body → P (Go body)) →
  P Wait →
  ∀ o, P o.
Proof.
  intros HPrint HAppend HGo HWait.
  fix IH 1. intros [m|p|body|].
  - apply HPrint.
  - apply HAppend.
  - apply HGo. induction body as [|o body IHbody]; constructor; [apply IH | exact IHbody].
  - apply HWait.
Qed.

Lemma op_turns_Go (k : nat) (body : list op) :
  op_turns k (Go body) = [] :: (cons k <$> turns 0 body).
Proof.
  simpl. do 2 f_equal. generalize 0.
  induction body as [|o body IH]; intros j; [done|].
  simpl. by rewrite IH.
Qed.

Lemma runs_code_of_ops (c : list op) : Forall runs_op c → runs_code c.
Proof.
  induction 1 as [|o c Ho _ IH]; intros m kids Hm Hkids.
  - exists m, kids. simpl. rewrite !app_nil_r. done.
  - destruct (Ho m kids c Hm Hkids) as (m1 & kids1 & Hrun1 & Hlen & Hm1 & Hk1 & He1 & Hp1).
    destruct (IH m1 kids1 Hm1 Hk1) as (m2 & kids2 & Hrun2 & Hm2 & Hk2 & He2 & Hp2).
    exists m2, kids2. split.
    { simpl. by rewrite run_schedule_app, Hrun1, <- Hlen, Hrun2. }
    split; [done|]. split; [done|].
    rewrite He2, He1, Hp2, Hp1, appends_cons, prints_cons, <- !app_assoc. done.
Qed.

Lemma runs_Print (x : msg) : runs_op (Print x).
Proof.
  intros m kids rest Hm Hkids. exists (print x m), kids. simpl.
  rewrite Nat.add_0_r, app_nil_r. done.
Qed.

Lemma runs_Wait : runs_op Wait.
Proof.
  intros m kids rest Hm Hkids. exists m, kids. simpl.
  assert (Hall : forallb finished kids = true).
  { clear Hm. induction Hkids as [|g kids Hg _ IH]; [done|]. simpl. by rewrite Hg, IH. }
  rewrite Hall, Nat.add_0_r, !app_nil_r. done.
Qed.

Lemma runs_Append (p : path) : runs_op (Append p).
Proof.
  intros m kids rest [Hle Hlen] Hkids.
  pose proof (append_sound (heap m) (imageFiles m) p Hle Hlen) as Happ.
  simpl. destruct (append (heap m) (imageFiles m) p) as [h s'].
  destruct Happ as (Hle' & Hlen' & Htake).
  exists (set_imageFiles s' (set_heap h m)), kids.
  rewrite Nat.add_0_r, app_nil_r. done.
Qed.

Lemma runs_Go (body : list op) : runs_code body → runs_op (Go body).
Proof.
  intros Hbody m kids rest Hm Hkids.
  destruct (Hbody m [] Hm (Forall_nil_2 _)) as (m' & kids' & Hrun & Hm' & Hk' & He & Hp).
  exists m', (kids ++ [Goroutine [] Fresh kids']).
  rewrite op_appends_Go, op_prints_Go.
  split.
  { rewrite op_turns_Go. simpl.
    rewrite (run_schedule_kid _ _ _ _ _ _ (Goroutine body Fresh [])).
    2:{ rewrite lookup_app_r by lia. by rewrite Nat.sub_diag. }
    simpl in Hrun. rewrite Hrun.
    rewrite insert_app_r_alt by lia. by rewrite Nat.sub_diag. }
  split; [by rewrite length_app|]. split; [done|].
  split; [apply Forall_app; split; [done|by constructor]|]. done.
Qed.

(** Every piece of code runs through under the schedule that takes the
    goroutines one by one. *)
Lemma runs_all (c : list op) : runs_code c.
Proof.
  apply runs_code_of_ops. apply Forall_forall. intros o _.
  induction o as [x|p|body IH|] using op_nested_ind.
  - apply runs_Print.
  - apply runs_Append.
  - apply runs_Go. by apply runs_code_of_ops.
  - apply runs_Wait.
Qed.

Lemma sound_start : sound start.
Proof. split; [done|reflexivity]. Qed.

(** One goroutine at a time, the walk ends with every path it appended in
    the collection, in order, and every line printed. *)
Lemma walk_one_by_one (c : list op) :
  ∃ m, walk (one_by_one c) c = Some m
       ∧ elements m = appends c
       ∧ printed m = prints c.
Proof.
  destruct (runs_all c start [] sound_start (Forall_nil_2 _))
    as (m & kids & Hrun & _ & _ & He & Hp).
  exists m. unfold walk, one_by_one. simpl in Hrun. rewrite Hrun. done.
Qed.
(** C4 on the code: two goroutines that append to [imageFiles] can both
    read the slice header before either has stored its own; the second
    store then overwrites the first, and of two paths found and printed
    one is in the collection. *)
Theorem append_not_atomic (p q : path) :
  let code := [Go [Append p; Print (Found p); Wait];
               Go [Append q; Print (Found q); Wait]; Wait] in
  run_schedule (take 4 racing) start (Goroutine code Fresh [])
  = Some (start,
          Goroutine [Wait] Fresh
            [Goroutine [Append p; Print (Found p); Wait] (Loaded nil_slice) [];
             Goroutine [Append q; Print (Found q); Wait] (Loaded nil_slice) []])
  ∧ ∃ m, walk racing code = Some m
         ∧ appends code = [p; q]
         ∧ printed m = [Found p; Found q]
         ∧ elements m = [q].
Proof.
  split; [reflexivity|].
  eexists. split; [reflexivity|]. repeat split.
Qed.

(** C1 on the code: in the tree with the pictures [a/1.jpg] and [b/2.png]
    the walk appends both paths; taken one goroutine at a time it ends
    with both in the collection, and under the schedule in which the two
    appends overlap it ends with one. *)
Theorem walk_depends_on_schedule :
  let code := search (H:=signatures) loud [] two_dirs in
  appends code = [["a"; "1.jpg"]; ["b"; "2.png"]]
  ∧ elements <$> walk (one_by_one code) code = Some [["a"; "1.jpg"]; ["b"; "2.png"]]
  ∧ elements <$> walk racing code = Some [["b"; "2.png"]].
Proof. repeat split. Qed.
(** * The paths a walk appends *)

(** Induction over a tree, through the entries of its directories. *)
Lemma node_nested_ind (P : node → Prop) :
  (∀ f, P (File f)) →
  (∀ err es, Forall (λ e, P (entry_node e)) es → P (Dir err es)) →
  ∀ n, P n.
Proof.
  intros HFile HDir.
  fix IH 1. intros [f|err es].
  - apply HFile.
  - apply HDir. induction es as [|[name info_err child] es IHes]; constructor.
    + apply IH.
    + exact IHes.
Qed.

Lemma tidy_Dir (err : bool) (es : list dirent) :
  tidy (Dir err es) ↔ NoDup (entry_name <$> es) ∧ Forall (λ e, tidy (entry_node e)) es.
Proof.
  simpl. apply and_iff_compat_l.
  induction es as [|[name info_err child] es IH]; simpl.
  - split; [constructor | done].
  - rewrite Forall_cons. simpl. by rewrite IH.
Qed.

Lemma reach_Dir (es : list dirent) (name : string) (rest : path) :
  reach (Dir false es) (name :: rest) = reach_in es name rest.
Proof.
  simpl. induction es as [|[nm info_err child] es IH]; [done|].
  simpl. by rewrite IH.
Qed.

(** In a listing without a repeated name, looking a name up finds the one
    entry that has it. *)
Lemma reach_in_unique (es : list dirent) (name : string) (rest : path) (f : file) :
  NoDup (entry_name <$> es) →
  reach_in es name rest = Some f
  ↔ ∃ e, e ∈ es ∧ entry_name e = name ∧ reach_entry e rest = Some f.
Proof.
  induction es as [|e es IH]; intros Hnd.
  - split; [done|]. intros (e & He & _). by apply elem_of_nil in He.
  - rewrite fmap_cons in Hnd. apply NoDup_cons in Hnd as [Hfresh Hnd].
    simpl. destruct (String.eqb (entry_name e) name) eqn:E.
    + apply String.eqb_eq in E. split.
      * intros Hr. exists e. split; [apply elem_of_cons; by left|done].
      * intros (e' & He' & Hn & Hr). apply elem_of_cons in He' as [->|He']; [done|].
        exfalso. apply Hfresh. rewrite E, <- Hn. by apply list_elem_of_fmap_2.
    + apply String.eqb_neq in E. rewrite (IH Hnd). split.
      * intros (e' & He' & Hn & Hr). exists e'. split; [apply elem_of_cons; by right|done].
      * intros (e' & He' & Hn & Hr). apply elem_of_cons in He' as [->|He']; [done|].
        by exists e'.
Qed.

Section CollectedFacts.
Context `{Filetype}.
Variable cfg : config.

Lemma unlistable_collects (n : node) : listable n = false → node_collects cfg n.
Proof.
  intros Hn location _. rewrite search_unlistable by done.
  split; [constructor|]. intros p. split.
  - intros Hp. by apply elem_of_nil in Hp.
  - intros (name & rest & f & _ & Hreach & _). by destruct n as [f'|[] es].
Qed.

Lemma entry_collects_of_node (location : path) (e : dirent) :
  tidy (entry_node e) → node_collects cfg (entry_node e) → entry_collects cfg location e.
Proof.
  destruct e as [name info_err child]. simpl. intros Htidy Hchild.
  destruct info_err.
  { split; [constructor|]. intros p. split.
    - intros Hp. by apply elem_of_nil in Hp.
    - by intros (rest & f & _ & Hreach & _). }
  destruct child as [f|err es].
  - unfold entry_collects. rewrite visit_file_appends. simpl. split.
    + destruct (isImageFile cfg (Join location name) f).1; [apply NoDup_singleton | constructor].
    + intros p. split.
      * intros Hp. exists [], f.
        destruct (isImageFile cfg (Join location name) f).1 eqn:E.
        -- apply list_elem_of_singleton in Hp as ->.
           split; [done|]. split; [done|]. exact E.
        -- by apply elem_of_nil in Hp.
      * intros (rest & f' & -> & Hreach & Hv).
        destruct rest; [|done]. injection Hreach as <-.
        unfold Join. rewrite Hv. by apply list_elem_of_singleton.
  - unfold entry_collects.
    assert (Hgo : appends (visit cfg location (Entry name false (Dir err es)))
                  = appends (search cfg (Join location name) (Dir err es))).
    { unfold visit. rewrite appends_cons, op_appends_Go. apply app_nil_r. }
    rewrite Hgo. destruct (Hchild (Join location name) Htidy) as [Hnd Hin].
    split; [done|]. intros p. rewrite Hin. unfold Join.
    cbn [entry_name reach_entry]. split.
    + intros (name' & rest & f & Hp & Hreach & Hv).
      exists (name' :: rest), f. by rewrite <- app_assoc in Hp.
    + intros (rest & f & Hp & Hreach & Hv).
      destruct rest as [|name' rest]; [by destruct err|].
      exists name', rest, f. by rewrite <- app_assoc.
Qed.

Lemma Dir_collects (es : list dirent) :
  Forall (λ e, node_collects cfg (entry_node e)) es → node_collects cfg (Dir false es).
Proof.
  intros Hes location [Hnames Htidy]%tidy_Dir.
  assert (Hent : ∀ e, e ∈ es → entry_collects cfg location e).
  { intros e He. rewrite Forall_forall in Hes, Htidy.
    apply entry_collects_of_node; auto. }
  rewrite appends_search_Dir. split.
  - apply NoDup_bind.
    + intros e1 e2 p He1 He2 Hp1 Hp2.
      apply (Hent e1 He1) in Hp1 as (r1 & f1 & -> & _).
      apply (Hent e2 He2) in Hp2 as (r2 & f2 & Heq & _).
      apply app_inv_head in Heq. injection Heq as Hname _.
      clear -Hnames He1 He2 Hname.
      induction es as [|e es IH]; [by apply elem_of_nil in He1|].
      rewrite fmap_cons in Hnames. apply NoDup_cons in Hnames as [Hfresh Hnames].
      apply elem_of_cons in He1 as [->|He1], He2 as [->|He2]; [done| | |by apply IH].
      * exfalso. apply Hfresh. rewrite Hname. by apply list_elem_of_fmap_2.
      * exfalso. apply Hfresh. rewrite <- Hname. by apply list_elem_of_fmap_2.
    + intros e He. apply (Hent e He).
    + by eapply NoDup_fmap_1.
  - intros p. rewrite list_elem_of_bind. split.
    + intros (e & Hp & He). apply (Hent e He) in Hp as (rest & f & -> & Hreach & Hv).
      exists (entry_name e), rest, f. split; [done|]. split; [|done].
      rewrite reach_Dir. apply reach_in_unique; [done|]. by exists e.
    + intros (name & rest & f & -> & Hreach & Hv).
      rewrite reach_Dir in Hreach.
      apply reach_in_unique in Hreach as (e & He & <- & Hreach); [|done].
      exists e. split; [|done]. apply (Hent e He). by exists rest, f.
Qed.

(** In a tree where no directory lists a name twice, a call of [search]
    appends the paths of the files it can meet that [isImageFile] accepts,
    and each of them once. *)
Lemma search_collects (n : node) : node_collects cfg n.
Proof.
  induction n as [f|err es IH] using node_nested_ind.
  - by apply unlistable_collects.
  - destruct err; [by apply unlistable_collects|]. by apply Dir_collects.
Qed.

End CollectedFacts.

(** X12: every walk has a schedule that brings it to its end with all it
    should collect.  Taken one goroutine at a time, the walk of a tree in
    which no directory lists a name twice ends with the paths of the files
    it can meet that [isImageFile] accepts in the collection, each once. *)
Lemma walk_one_by_one_collects `{Filetype} (cfg : config) (location : path) (n : node) :
  tidy n →
  ∃ m, walk (one_by_one (search cfg location n)) (search cfg location n) = Some m
       ∧ NoDup (elements m)
       ∧ ∀ p, p ∈ elements m
              ↔ ∃ name rest f, p = location ++ name :: rest
                               ∧ reach n (name :: rest) = Some f
                               ∧ (isImageFile cfg p f).1 = true.
Proof.
  intros Htidy.
  destruct (walk_one_by_one (search cfg location n)) as (m & Hwalk & He & _).
  exists m. split; [done|]. rewrite He. by apply search_collects.
Qed.

Lemma walk_one_by_one_collects_witness :
  ∃ m, walk (one_by_one (search (H:=signatures) loud ["pics"] scenario))
         (search (H:=signatures) loud ["pics"] scenario) = Some m
       ∧ NoDup (elements m)
       ∧ ∀ p, p ∈ elements m
              ↔ ∃ name rest f, p = ["pics"] ++ name :: rest
                               ∧ reach scenario (name :: rest) = Some f
                               ∧ (isImageFile (H:=signatures) loud p f).1 = true.
Proof.
  apply (walk_one_by_one_collects (H:=signatures) loud ["pics"] scenario).
  simpl. repeat split; by apply (bool_decide_eq_true_1 _).
Defined.

(** * What every schedule keeps *)

Lemma goroutine_nested_ind (P : goroutine → Prop) :
  (∀ code st kids, Forall P kids → P (Goroutine code st kids)) →
  ∀ g, P g.
Proof.
  intros Hall. fix IH 1. intros [code st kids].
  apply Hall. induction kids as [|k kids IHkids]; constructor; [apply IH | exact IHkids].
Qed.

Section SafetyFacts.
Variable allowed : list path.

Lemma safe_Goroutine (h : list (list path)) (code : list op) (st : stage)
    (kids : list goroutine) :
  safe allowed h (Goroutine code st kids)
  ↔ (∀ p, p ∈ appends code → p ∈ allowed)
    ∧ stage_valid allowed h st
    ∧ Forall (safe allowed h) kids.
Proof.
  simpl. do 2 apply and_iff_compat_l.
  induction kids as [|k kids IH]; [split; [constructor|done]|].
  rewrite Forall_cons. by rewrite IH.
Qed.

(** Validity that survives a change of the heap carries safety over. *)
Lemma safe_carried (h h' : list (list path)) (g : goroutine) :
  (∀ s, valid allowed h s → valid allowed h' s) →
  safe allowed h g → safe allowed h' g.
Proof.
  intros Hkeep. induction g as [code st kids IH] using goroutine_nested_ind.
  rewrite !safe_Goroutine. intros (Hcode & Hst & Hkids).
  split; [done|]. split.
  - destruct st; simpl in *; auto.
  - rewrite Forall_forall in IH, Hkids. apply Forall_forall. auto.
Qed.

(** [append] from a valid header gives a valid header and keeps the valid
    ones valid: a cell is only ever overwritten with an allowed path. *)
Lemma append_valid (h : list (list path)) (s0 : slice) (p : path) :
  valid allowed h s0 → p ∈ allowed →
  valid allowed (append h s0 p).1 (append h s0 p).2
  ∧ ∀ s, valid allowed h s → valid allowed (append h s0 p).1 s.
Proof.
  intros (Hptr & Hle & Hlen & Hcells) Hp.
  pose proof (append_sound h s0 p Hle Hlen) as Hsound.
  unfold append in *. destruct (len s0 <? cap s0) eqn:E.
  - apply Nat.ltb_lt in E. destruct Hsound as (Hle' & Hlen' & Htake). unfold valid. cbn [fst snd ptr len cap] in *.
    split.
    + split; [by rewrite length_alter|]. split; [done|]. split; [done|].
      rewrite Htake. apply Forall_app. split; [done|]. by repeat constructor.
    + intros s (Hptr' & Hle'' & Hlen'' & Hcells').
      split; [by rewrite length_alter|]. split; [done|].
      unfold array in *.
      destruct (decide (ptr s0 = ptr s)) as [Heq|Hne].
      * rewrite <- Heq in *. rewrite list_lookup_alter_eq.
        destruct (h !! ptr s0) as [a|]; simpl in *; [|done].
        split; [by rewrite length_insert|].
        destruct (decide (len s ≤ len s0)).
        -- by rewrite take_insert_ge.
        -- rewrite take_insert_lt by lia. by apply Forall_insert.
      * by rewrite list_lookup_alter_ne.
  - destruct Hsound as (Hle' & Hlen' & Htake). unfold valid. cbn [fst snd ptr len cap] in *. split.
    + split; [rewrite length_app; simpl; lia|]. split; [done|]. split; [done|].
      rewrite Htake. apply Forall_app. split; [done|]. by repeat constructor.
    + intros s (Hptr' & Hle'' & Hlen'' & Hcells').
      split; [rewrite length_app; simpl; lia|]. split; [done|].
      unfold array in *. by rewrite lookup_app_l.
Qed.

Lemma appends_tail (o : op) (c : list op) (p : path) :
  p ∈ appends c → p ∈ appends (o :: c).
Proof. intros Hp. rewrite appends_cons. apply elem_of_app. by right. Qed.

(** A step anywhere in the tree of goroutines keeps the header of
    [imageFiles] valid, the goroutines safe and the valid headers valid. *)
Lemma step_at_safe (who : list nat) (m m' : memory) (g g' : goroutine) :
  valid allowed (heap m) (imageFiles m) →
  safe allowed (heap m) g →
  step_at who m g = Some (m', g') →
  valid allowed (heap m') (imageFiles m')
  ∧ safe allowed (heap m') g'
  ∧ ∀ s, valid allowed (heap m) s → valid allowed (heap m') s.
Proof.
  revert m m' g g'. induction who as [|i who IH]; intros m m' [code st kids] g' Hm Hg Hstep.
  - apply safe_Goroutine in Hg as (Hcode & Hst & Hkids).
    simpl in Hstep. destruct code as [|[x|p|body|] c]; [done| | | |].
    + injection Hstep as <- <-. split; [done|]. split; [|done].
      apply safe_Goroutine. split; [|done]. intros q Hq. by apply Hcode, appends_tail.
    + assert (Hp : p ∈ allowed).
      { apply Hcode. rewrite appends_cons. apply elem_of_app. left.
        by apply list_elem_of_singleton. }
      destruct st as [|s|s'].
      * injection Hstep as <- <-. split; [done|]. split; [|done].
        by apply safe_Goroutine.
      * destruct (append_valid (heap m) s p Hst Hp) as [Hs' Hkeep].
        destruct (append (heap m) s p) as [h s']. injection Hstep as <- <-.
        cbn [fst snd] in *. unfold set_heap. cbn [heap imageFiles].
        split; [by apply Hkeep|]. split; [|done].
        apply safe_Goroutine. split; [done|]. split; [done|].
        eapply Forall_impl; [exact Hkids|]. intros k. by apply safe_carried.
      * injection Hstep as <- <-. split; [done|]. split; [|done].
        apply safe_Goroutine. split; [|done]. intros q Hq. by apply Hcode, appends_tail.
    + injection Hstep as <- <-. split; [done|]. split; [|done].
      apply safe_Goroutine. split; [intros q Hq; by apply Hcode, appends_tail|].
      split; [done|]. apply Forall_app. split; [done|]. constructor; [|constructor].
      apply safe_Goroutine. split; [|by split].
      intros q Hq. apply Hcode. rewrite appends_cons, op_appends_Go.
      apply elem_of_app. by left.
    + destruct (forallb finished kids); [|done]. injection Hstep as <- <-.
      split; [done|]. split; [|done].
      apply safe_Goroutine. split; [|done]. intros q Hq. by apply Hcode, appends_tail.
  - apply safe_Goroutine in Hg as (Hcode & Hst & Hkids).
    simpl in Hstep. destruct (kids !! i) as [k|] eqn:Hk; [|done].
    destruct (step_at who m k) as [[m1 k1]|] eqn:Hkstep; [|done].
    injection Hstep as <- <-.
    assert (Hsafe_k : safe allowed (heap m) k).
    { rewrite Forall_forall in Hkids. apply Hkids. by eapply list_elem_of_lookup_2. }
    destruct (IH m m1 k k1 Hm Hsafe_k Hkstep) as (Hm1 & Hk1 & Hkeep).
    split; [done|]. split; [|done].
    apply safe_Goroutine. split; [done|]. split.
    + destruct st; simpl in *; auto.
    + apply Forall_insert; [|done].
      eapply Forall_impl; [exact Hkids|]. intros k'. by apply safe_carried.
Qed.

Lemma run_schedule_safe (sched : list (list nat)) (m m' : memory) (g g' : goroutine) :
  valid allowed (heap m) (imageFiles m) →
  safe allowed (heap m) g →
  run_schedule sched m g = Some (m', g') →
  valid allowed (heap m') (imageFiles m').
Proof.
  revert m g. induction sched as [|who sched IH]; intros m g Hm Hg Hrun.
  - by injection Hrun as <- <-.
  - simpl in Hrun. destruct (step_at who m g) as [[m1 g1]|] eqn:Hstep; [|done].
    destruct (step_at_safe who m m1 g g1 Hm Hg Hstep) as (Hm1 & Hg1 & _).
    by eapply IH.
Qed.

End SafetyFacts.

(** With the steps in this order, the collection a walk ends with holds
    nothing but paths the walk appended. *)
Lemma walk_collects_only (sched : list (list nat)) (c : list op) (m : memory) :
  walk sched c = Some m → ∀ p, p ∈ elements m → p ∈ appends c.
Proof.
  unfold walk. intros Hwalk.
  destruct (run_schedule sched start (Goroutine c Fresh [])) as [[m' g']|] eqn:Hrun; [|done].
  destruct (finished g'); [|done]. injection Hwalk as ->.
  assert (Hvalid : valid (appends c) (heap m) (imageFiles m)).
  { eapply run_schedule_safe; [| |exact Hrun].
    - split; [simpl; lia|]. split; [done|]. split; [done|]. constructor.
    - apply safe_Goroutine. split; [done|]. split; [done|constructor]. }
  destruct Hvalid as (_ & _ & _ & Hcells).
  intros p Hp. rewrite Forall_forall in Hcells. by apply Hcells.
Qed.

(** * The scenario of the specification

    [/a.jpg] (JPEG), [/sub/b.txt] (text), [/sub/c.png] (PNG): the walk
    collects the two pictures, the archive has their two entries, and with
    a token, a chat ID and a message the run ends with status 0. *)
Lemma scenario_run :
  let code := search (H:=signatures) to_chat [] scenario in
  let w := bare (Some scenario) in
  elements <$> walk (one_by_one code) code = Some [["a.jpg"]; ["sub"; "c.png"]]
  ∧ (zipImages (H:=stored) false (disk_of [] w) [["a.jpg"]; ["sub"; "c.png"]] ["images.zip"]).1
    = Some [entry_of (H:=stored) ["a.jpg"] (a_file jpeg_bytes);
            entry_of (H:=stored) ["sub"; "c.png"] (a_file png_bytes)]
  ∧ fst <$> run (H:=signatures) (H0:=stored) (H1:=accepting) to_chat w (one_by_one code)
    = Some 0%Z.
Proof. repeat split. Qed.
(** * More about the run *)

Section RunFacts.
Context `{Filetype} `{Zip} `{Http}.
Variable cfg : config.
Variable w : world.

Lemma zipImages_no_error (d : disk) (imgs : list path) (output : path)
    (archive : option (list entry)) :
  zipImages (create_err w) d imgs output = (archive, None) → ∃ es, archive = Some es.
Proof.
  unfold zipImages. destruct (create_err w); [done|].
  destruct (add_each _ _ _) as [zw err]. intros [= <- _]. by exists zw.
Qed.

Lemma filter_calls_Walked (l : list msg) :
  filter (λ x, is_call x = true) (Walked <$> l) = [].
Proof.
  induction l as [|x l IH]; [done|].
  rewrite fmap_cons, filter_cons. by rewrite decide_False.
Qed.

End RunFacts.

(** X1: a run that has walked ends with status 0 or 1, and with 0 in two
    cases only: nothing was collected; or the archive was built, its file
    is within 20 MiB, the chat ID is not empty, the message request was
    answered with 200 and, when token, chat ID and message are all set, so
    was the upload of the archive. *)
Theorem exit_status `{Filetype} `{Zip} `{Http} (cfg : config) (w : world)
    (sched : list (list nat)) (n : node) (m : memory) :
  root w = Some n →
  walk sched (search cfg (location cfg) n) = Some m →
  ∃ status lines,
    run cfg w sched = Some (status, lines)
    ∧ (status = 0%Z ∨ status = 1%Z)
    ∧ (status = 0%Z ↔
       elements m = []
       ∨ ∃ es,
           zipImages (create_err w) (disk_of (location cfg) w) (elements m) (outputZip cfg)
           = (Some es, None)
           ∧ (Z.of_nat (length (encode es)) ≤ 20 * 1024 * 1024)%Z
           ∧ telegramChatID cfg ≠ EmptyString
           ∧ reply (sendMessage (telegramToken cfg) (telegramChatID cfg) (message cfg)) = None
           ∧ (nonempty (telegramToken cfg) && nonempty (telegramChatID cfg)
              && nonempty (message cfg) = true →
              reply (sendDocument (telegramToken cfg) (telegramChatID cfg)
                       (Base (outputZip cfg)) (encode es)) = None)).
Proof.
  intros Hroot Hwalk. rewrite (run_walked cfg w sched n m Hroot Hwalk).
  eexists _, _. split; [reflexivity|]. cbn [fst].
  destruct (elements m) as [|p imgs] eqn:Himgs.
  { split; [by left|]. split; [by left|done]. }
  set (found := p :: imgs) in *.
  destruct (zipImages (create_err w) (disk_of (location cfg) w) found (outputZip cfg))
    as [archive [e|]] eqn:Hzip.
  { rewrite (deliver_build_error cfg w found archive e); [|done|done].
    split; [by right|]. split; [done|]. intros [?|(es & ? & _)]; done. }
  destruct (zipImages_no_error w _ _ _ _ Hzip) as [es ->].
  rewrite (deliver_built cfg w found es); [|done|done]. cbv zeta.
  fold limit. destruct (limit <? Z.of_nat (length (encode es)))%Z eqn:Hsize.
  { apply Z.ltb_lt in Hsize. split; [by right|]. split; [done|].
    intros [?|(es' & [= <-] & Hle & _)]; [done|]. unfold limit in *. lia. }
  apply Z.ltb_ge in Hsize. unfold sendMessageToTelegram.
  destruct (String.eqb (telegramChatID cfg) EmptyString) eqn:Hchat.
  { apply String.eqb_eq in Hchat. split; [by right|]. split; [done|].
    intros [?|(es' & _ & _ & Hne & _)]; done. }
  apply String.eqb_neq in Hchat.
  destruct (reply (sendMessage _ _ _)) as [e|] eqn:Hmsg.
  { split; [by right|]. split; [done|]. intros [?|(es' & _ & _ & _ & ? & _)]; done. }
  destruct (nonempty (telegramToken cfg) && nonempty (telegramChatID cfg)
            && nonempty (message cfg)) eqn:Hall.
  - unfold sendFileToTelegram, with_archive.
    apply String.eqb_neq in Hchat. rewrite Hchat. cbn [lookup]. rewrite reaches_refl.
    cbn [f_open_err a_file f_data].
    destruct (reply (sendDocument _ _ _ _)) as [e|] eqn:Hdoc.
    + split; [by right|]. split; [done|].
      intros [?|(es' & [= <-] & _ & _ & _ & Hup)]; [done|]. specialize (Hup eq_refl). congruence.
    + split; [by left|]. split; [|done]. intros _. right. exists es.
      apply String.eqb_neq in Hchat. unfold limit in *. done.
  - split; [by left|]. split; [|done]. intros _. right. exists es.
    unfold limit in *. done.
Qed.

Lemma exit_status_witness :
  ∃ status lines,
    run (H:=signatures) (H0:=stored) (H1:=accepting) to_chat
      (bare (Some single)) alone
    = Some (status, lines)
    ∧ (status = 0%Z ∨ status = 1%Z).
Proof.
  destruct (exit_status (H:=signatures) (H0:=stored) (H1:=accepting) to_chat
              (bare (Some single)) alone single
              {| heap := [[]; [["a.jpg"]]];
                 imageFiles := {| ptr := 1; len := 1; cap := 1 |};
                 printed := [Found ["a.jpg"]] |})
    as (status & lines & Hrun & Hstatus & _).
  - reflexivity.
  - reflexivity.
  - by exists status, lines.
Defined.

(** X2: a run sends at most two requests and none of them twice: first the
    message, then, only when the message was answered with 200 and token,
    chat ID and message are all set, the document; the document is the
    archive file as [zipImages] left it, under its base name. *)
Theorem requests_of_a_run `{Filetype} `{Zip} `{Http} (cfg : config) (w : world)
    (sched : list (list nat)) (n : node) (m : memory) :
  root w = Some n →
  walk sched (search cfg (location cfg) n) = Some m →
  let text := sendMessage (telegramToken cfg) (telegramChatID cfg) (message cfg) in
  ∃ status lines,
    run cfg w sched = Some (status, lines)
    ∧ (filter (λ l, is_call l = true) lines = []
       ∨ filter (λ l, is_call l = true) lines = [Called text]
       ∨ ∃ es,
           zipImages (create_err w) (disk_of (location cfg) w) (elements m) (outputZip cfg)
           = (Some es, None)
           ∧ reply text = None
           ∧ nonempty (telegramToken cfg) && nonempty (telegramChatID cfg)
             && nonempty (message cfg) = true
           ∧ filter (λ l, is_call l = true) lines
             = [Called text;
                Called (sendDocument (telegramToken cfg) (telegramChatID cfg)
                          (Base (outputZip cfg)) (encode es))]).
Proof.
  intros Hroot Hwalk text. rewrite (run_walked cfg w sched n m Hroot Hwalk).
  eexists _, _. split; [reflexivity|]. cbn [snd].
  rewrite filter_app, filter_calls_Walked. cbn [app].
  destruct (elements m) as [|p imgs] eqn:Himgs; [by left|].
  set (found := p :: imgs) in *.
  destruct (zipImages (create_err w) (disk_of (location cfg) w) found (outputZip cfg))
    as [archive [e|]] eqn:Hzip.
  { rewrite (deliver_build_error cfg w found archive e); [|done|done]. by left. }
  destruct (zipImages_no_error w _ _ _ _ Hzip) as [es ->].
  rewrite (deliver_built cfg w found es); [|done|done]. cbv zeta.
  destruct (limit <? Z.of_nat (length (encode es)))%Z; [by left|].
  unfold sendMessageToTelegram.
  destruct (String.eqb (telegramChatID cfg) EmptyString) eqn:Hchat; [by left|].
  fold text. destruct (reply text) as [e|] eqn:Hmsg; [right; by left|].
  destruct (nonempty (telegramToken cfg) && nonempty (telegramChatID cfg)
            && nonempty (message cfg)) eqn:Hall; [|right; by left].
  unfold sendFileToTelegram, with_archive. cbn [lookup]. rewrite Hchat, reaches_refl.
  cbn [f_open_err a_file f_data].
  right. right. exists es. split; [done|]. split; [done|]. split; [done|].
  by destruct (reply (sendDocument _ _ _ _)).
Qed.

Lemma requests_of_a_run_witness :
  ∃ status lines,
    run (H:=signatures) (H0:=stored) (H1:=accepting) to_chat
      (bare (Some single)) alone
    = Some (status, lines)
    ∧ length (filter (λ l, is_call l = true) lines) ≤ 2.
Proof.
  destruct (requests_of_a_run (H:=signatures) (H0:=stored) (H1:=accepting) to_chat
              (bare (Some single)) alone single
              {| heap := [[]; [["a.jpg"]]];
                 imageFiles := {| ptr := 1; len := 1; cap := 1 |};
                 printed := [Found ["a.jpg"]] |})
    as (status & lines & Hrun & Hcalls).
  - reflexivity.
  - reflexivity.
  - exists status, lines. split; [done|].
    destruct Hcalls as [->|[->|(es & _ & _ & _ & ->)]]; simpl; lia.
Defined.
(** * More about the classifier and the walk *)

Lemma fill_take (d : list byte) : fill (take window d) = fill d.
Proof. unfold fill. by rewrite take_take, Nat.min_id. Qed.

Lemma take_window_nil (d : list byte) : take window d = [] ↔ d = [].
Proof. split; [by destruct d | by intros ->]. Qed.

(** X3: [isImageFile] looks at nothing behind the 261st byte: two files
    that open and read alike and agree on their first 261 bytes get the
    same verdict and the same lines. *)
Theorem isImageFile_first_bytes `{Filetype} (cfg : config) (p : path) (f g : file) :
  f_open_err f = f_open_err g →
  f_read_err f = f_read_err g →
  take window (f_data f) = take window (f_data g) →
  isImageFile cfg p f = isImageFile cfg p g.
Proof.
  intros Ho Hr Hd. unfold isImageFile, Read. rewrite Ho, Hr.
  destruct (f_open_err g && negb (silence cfg)); [done|].
  destruct (negb (negb (f_open_err g))); [done|].
  destruct (f_read_err g); [done|].
  destruct (f_data f) as [|a d] eqn:Hf.
  - rewrite take_nil in Hd. symmetry in Hd. apply (proj1 (take_window_nil _)) in Hd. by rewrite Hd.
  - destruct (f_data g) as [|b e] eqn:Hg; [done|].
    assert (Hfill : fill (a :: d) = fill (b :: e)).
    { rewrite <- (fill_take (a :: d)), <- (fill_take (b :: e)). by f_equal. }
    by rewrite Hfill.
Qed.

Lemma isImageFile_first_bytes_witness :
  isImageFile (H:=signatures) loud ["a.jpg"] (a_file (jpeg_bytes ++ replicate 251 x20 ++ [x41]))
  = isImageFile (H:=signatures) loud ["a.jpg"] (a_file (jpeg_bytes ++ replicate 251 x20 ++ [x42; x43])).
Proof.
  apply (isImageFile_first_bytes (H:=signatures)).
  - reflexivity.
  - reflexivity.
  - reflexivity.
Defined.

Section FlagFacts.
Context `{Filetype}.
Hypothesis zeros_rejected : IsImage (make window) = false.

(** With a table that rejects the buffer of zeros the verdict is that of
    the buffer for a file that opens and reads, and no otherwise, whatever
    the flags. *)
Lemma isImageFile_verdict (cfg : config) (p : path) (f : file) :
  (isImageFile cfg p f).1
  = if f_open_err f || f_read_err f || bool_decide (f_data f = []) then false
    else IsImage (fill (f_data f)).
Proof.
  destruct (f_open_err f || f_read_err f || bool_decide (f_data f = [])) eqn:E.
  - rewrite isImageFile_failing by done.
    destruct (silence cfg); [exact zeros_rejected | done].
  - apply orb_false_iff in E as [E Hd]. apply orb_false_iff in E as [Ho Hr].
    apply bool_decide_eq_false in Hd. by apply isImageFile_readable.
Qed.

Lemma appends_visit_flags (cfg cfg' : config) (location : path) (e : dirent) :
  (∀ location', appends (search cfg location' (entry_node e))
                = appends (search cfg' location' (entry_node e))) →
  appends (visit cfg location e) = appends (visit cfg' location e).
Proof.
  destruct e as [name info_err child]. cbn [entry_node]. intros IH.
  destruct info_err; [done|]. destruct child as [f|err es].
  - rewrite !visit_file_appends. by rewrite !isImageFile_verdict.
  - unfold visit. by rewrite !appends_cons, !op_appends_Go, IH.
Qed.

End FlagFacts.

(** X4: neither [-silence] nor [-d] (nor any other option) changes what a
    walk appends, for a table that rejects the buffer of zeros: the two
    flags change the lines only. *)
Theorem flags_keep_the_collection `{Filetype} (cfg cfg' : config) (location : path)
    (n : node) :
  IsImage (make window) = false →
  appends (search cfg location n) = appends (search cfg' location n).
Proof.
  intros Hzero. revert location.
  induction n as [f|err es IH] using node_nested_ind; intros location; [done|].
  destruct err; [done|]. rewrite !appends_search_Dir.
  induction IH as [|e es He _ IHes]; [done|].
  rewrite !bind_cons, IHes. f_equal. by apply appends_visit_flags.
Qed.

Lemma flags_keep_the_collection_witness :
  appends (search (H:=signatures) quiet []
             (Dir false [Entry "x.jpg" false (File (locked jpeg_bytes));
                         Entry "a.jpg" false (File (a_file jpeg_bytes))]))
  = appends (search (H:=signatures) loud []
               (Dir false [Entry "x.jpg" false (File (locked jpeg_bytes));
                           Entry "a.jpg" false (File (a_file jpeg_bytes))])).
Proof.
  apply (flags_keep_the_collection (H:=signatures)). reflexivity.
Defined.

(** * What a returned walk has done *)

Lemma everywhere_Goroutine (P : list op → stage → list goroutine → Prop)
    (code : list op) (st : stage) (kids : list goroutine) :
  everywhere P (Goroutine code st kids) ↔ P code st kids ∧ Forall (everywhere P) kids.
Proof.
  simpl. apply and_iff_compat_l.
  induction kids as [|k kids IH]; [split; [constructor|done]|].
  rewrite Forall_cons. by rewrite IH.
Qed.

Lemma all_returned_Goroutine (code : list op) (st : stage) (kids : list goroutine) :
  all_returned (Goroutine code st kids) = true
  ↔ code = [] ∧ Forall (λ k, all_returned k = true) kids.
Proof.
  simpl. destruct code as [|o c].
  2:{ split; [discriminate | intros [Hx _]; discriminate Hx]. }
  split.
  - intros Hall. split; [done|].
    induction kids as [|k kids IH]; [constructor|].
    apply andb_true_iff in Hall as [Hk Hall]. constructor; auto.
  - intros [_ Hall]. induction Hall as [|k kids Hk _ IH]; [done|]. by rewrite Hk, IH.
Qed.

Lemma pending_Goroutine (code : list op) (st : stage) (kids : list goroutine) :
  pending (Goroutine code st kids) = prints code ++ (kids ≫= pending).
Proof.
  reflexivity.
Qed.

Lemma unstored_Goroutine (code : list op) (st : stage) (kids : list goroutine) :
  unstored (Goroutine code st kids) = length (appends code) + sum_list (unstored <$> kids).
Proof.
  cbn [unstored]. f_equal. induction kids as [|k kids IH]; [done|].
  rewrite fmap_cons. cbn [sum_list sum_list_with]. by rewrite IH.
Qed.

(** A goroutine that has returned with all it launched makes no step. *)
Lemma all_returned_stuck (who : list nat) (m : memory) (g : goroutine) :
  all_returned g = true → step_at who m g = None.
Proof.
  revert g. induction who as [|i who IH]; intros [code st kids] Hg;
    apply all_returned_Goroutine in Hg as [-> Hkids]; [done|].
  simpl. destruct (kids !! i) as [k|] eqn:Hk; [|done].
  rewrite IH; [done|]. rewrite Forall_forall in Hkids.
  apply Hkids. by eapply list_elem_of_lookup_2.
Qed.

Lemma all_returned_nothing_left (g : goroutine) :
  all_returned g = true → pending g = [] ∧ unstored g = 0.
Proof.
  induction g as [code st kids IH] using goroutine_nested_ind.
  intros [-> Hkids]%all_returned_Goroutine.
  rewrite pending_Goroutine, unstored_Goroutine.
  assert (Hrest : kids ≫= pending = [] ∧ sum_list (unstored <$> kids) = 0).
  { induction IH as [|k kids Hk _ IHkids]; [done|].
    apply Forall_cons in Hkids as [Hrk Hkids].
    destruct (Hk Hrk) as [Hpk Huk]. destruct (IHkids Hkids) as [Hp Hu].
    rewrite bind_cons, fmap_cons, Hpk, Hp. cbn [sum_list sum_list_with].
    rewrite Huk. split; [done|exact Hu]. }
  destruct Hrest as [-> ->]. done.
Qed.

Lemma last_Some_tail (o : op) (c : list op) :
  last (o :: c) = Some Wait → c = [] ∧ o = Wait ∨ last c = Some Wait.
Proof.
  rewrite last_cons. destruct (last c) as [x|] eqn:Hlast.
  - intros [= ->]. by right.
  - intros [= ->]. left. split; [|done]. by apply last_None.
Qed.

Lemma settled_Goroutine (code : list op) (st : stage) (kids : list goroutine) :
  settled (Goroutine code st kids)
  ↔ ((last code = Some Wait
      ∨ (Forall (λ o, launches o = 0) code ∧ Forall (λ k, all_returned k = true) kids))
     ∧ Forall op_joined code)
    ∧ Forall settled kids.
Proof. apply everywhere_Goroutine. Qed.

Lemma op_joined_Go (body : list op) : op_joined (Go body) ↔ joined body.
Proof.
  unfold joined. simpl. apply and_iff_compat_l.
  induction body as [|o c IH]; [split; [constructor|done]|].
  rewrite Forall_cons. by rewrite IH.
Qed.

Lemma joined_settled (c : list op) : joined c → settled (Goroutine c Fresh []).
Proof.
  intros [Hw Hj]. apply settled_Goroutine. split; [|constructor].
  split; [|done]. destruct Hw as [Hno|Hlast]; [right|by left]. by split.
Qed.

Lemma settled_returned (g : goroutine) :
  settled g → finished g = true → all_returned g = true.
Proof.
  destruct g as [[|o c] st kids]; [|done].
  intros [[[Hl|[_ Hk]] _] _]%settled_Goroutine _; [done|].
  by apply all_returned_Goroutine.
Qed.

(** A step keeps a tree of goroutines settled. *)
Lemma step_at_settled (who : list nat) (m m' : memory) (g g' : goroutine) :
  settled g → step_at who m g = Some (m', g') → settled g'.
Proof.
  revert m m' g g'. induction who as [|i who IH]; intros m m' [code st kids] g' Hg Hstep.
  - apply settled_Goroutine in Hg as [[Hend Hcode] Hkids]. simpl in Hstep.
    assert (Htail : ∀ o c, code = o :: c → o ≠ Wait → launches o = 0 →
              settled (Goroutine c Fresh kids) ∧ ∀ st', settled (Goroutine c st' kids)).
    { intros o c -> Ho Hl.
      assert (∀ st', settled (Goroutine c st' kids)); [|by split].
      intros st'. apply settled_Goroutine. split; [|done].
      apply Forall_cons in Hcode as [_ Hcode]. split; [|done].
      destruct Hend as [Hlast|[Hno Hret]].
      - apply last_Some_tail in Hlast as [[_ ->]|Hlast]; [done|by left].
      - apply Forall_cons in Hno as [_ Hno]. by right. }
    destruct code as [|[x|p|body|] c]; [done| | | |].
    + injection Hstep as <- <-. by apply (Htail (Print x) c).
    + destruct st as [|s|s'].
      * injection Hstep as <- <-. by apply settled_Goroutine.
      * destruct (append (heap m) s p) as [h s']. injection Hstep as <- <-.
        by apply settled_Goroutine.
      * injection Hstep as <- <-. by apply (Htail (Append p) c).
    + injection Hstep as <- <-.
      apply Forall_cons in Hcode as [Hbody Hcode]. apply op_joined_Go in Hbody.
      destruct Hend as [Hlast|[Hno _]].
      2:{ apply Forall_cons in Hno as [Hno _]. done. }
      apply last_Some_tail in Hlast as [[_ ?]|Hlast]; [done|].
      apply settled_Goroutine. split; [split; [by left|done]|].
      apply Forall_app. split; [done|]. constructor; [|constructor].
      by apply joined_settled.
    + destruct (forallb finished kids) eqn:Hfin; [|done]. injection Hstep as <- <-.
      apply Forall_cons in Hcode as [_ Hcode].
      apply settled_Goroutine. split; [|done]. split; [|done].
      destruct Hend as [Hlast|[Hno Hret]].
      * apply last_Some_tail in Hlast as [[-> _]|Hlast]; [|by left].
        right. split; [constructor|].
        rewrite Forall_forall in Hkids. apply Forall_forall. intros k Hk.
        apply settled_returned; [by apply Hkids|].
        rewrite forallb_forall in Hfin. apply Hfin. by apply list_elem_of_In.
      * apply Forall_cons in Hno as [_ Hno]. by right.
  - apply settled_Goroutine in Hg as [[Hend Hcode] Hkids]. simpl in Hstep.
    destruct (kids !! i) as [k|] eqn:Hk; [|done].
    destruct (step_at who m k) as [[m1 k1]|] eqn:Hkstep; [|done].
    injection Hstep as <- <-.
    assert (Hsk : settled k).
    { rewrite Forall_forall in Hkids. apply Hkids. by eapply list_elem_of_lookup_2. }
    apply settled_Goroutine. split.
    + split; [|done]. destruct Hend as [Hlast|[Hno Hret]]; [by left|].
      exfalso. rewrite Forall_forall in Hret.
      assert (Hrk : all_returned k = true).
      { apply Hret. by eapply list_elem_of_lookup_2. }
      by rewrite (all_returned_stuck who m k Hrk) in Hkstep.
    + apply Forall_insert; [done|]. by eapply IH.
Qed.

(** A step moves a line from what is pending to what is printed, or leaves
    both as they are. *)
Lemma step_at_pending (who : list nat) (m m' : memory) (g g' : goroutine) :
  step_at who m g = Some (m', g') →
  printed m' ++ pending g' ≡ₚ printed m ++ pending g.
Proof.
  revert m m' g g'. induction who as [|i who IH]; intros m m' [code st kids] g' Hstep.
  - simpl in Hstep. destruct code as [|[x|p|body|] c]; [done| | | |].
    + injection Hstep as <- <-. rewrite !pending_Goroutine, prints_cons.
      unfold print. cbn [printed op_prints]. by rewrite <- !app_assoc.
    + destruct st as [|s|s'].
      * by injection Hstep as <- <-.
      * destruct (append (heap m) s p) as [h s']. by injection Hstep as <- <-.
      * by injection Hstep as <- <-.
    + injection Hstep as <- <-. rewrite !pending_Goroutine, prints_cons, op_prints_Go.
      rewrite bind_app, bind_cons. cbn [mbind list_bind].
      rewrite pending_Goroutine. cbn [mbind list_bind]. rewrite !app_nil_r.
      solve_Permutation.
    + destruct (forallb finished kids); [|done]. by injection Hstep as <- <-.
  - simpl in Hstep. destruct (kids !! i) as [k|] eqn:Hk; [|done].
    destruct (step_at who m k) as [[m1 k1]|] eqn:Hkstep; [|done].
    injection Hstep as <- <-. specialize (IH m m1 k k1 Hkstep).
    rewrite !pending_Goroutine.
    rewrite <- (take_drop_middle kids i k Hk) at 2.
    rewrite insert_take_drop by (by eapply lookup_lt_Some).
    rewrite !bind_app, !bind_cons.
    assert (Hmove : ∀ a b x c d : list msg, a ++ b ++ c ++ x ++ d ≡ₚ (a ++ x) ++ b ++ c ++ d)
      by (intros; solve_Permutation).
    rewrite !Hmove, IH. done.
Qed.

Lemma run_schedule_returned (sched : list (list nat)) (m m' : memory) (g g' : goroutine) :
  settled g →
  run_schedule sched m g = Some (m', g') →
  settled g' ∧ printed m' ++ pending g' ≡ₚ printed m ++ pending g.
Proof.
  revert m g. induction sched as [|who sched IH]; intros m g Hg Hrun.
  - by injection Hrun as <- <-.
  - simpl in Hrun. destruct (step_at who m g) as [[m1 g1]|] eqn:Hstep; [|done].
    destruct (IH m1 g1) as [Hs Hp]; [by eapply step_at_settled|done|].
    split; [done|]. rewrite Hp. by eapply step_at_pending.
Qed.

Section SearchShape.
Context `{Filetype}.
Variable cfg : config.

(** The code of [search] waits for the goroutines it launches, and prints
    as found what it appends. *)
Lemma visit_joined (location : path) (e : dirent) :
  (∀ location', joined (search cfg location' (entry_node e))) →
  Forall op_joined (visit cfg location e).
Proof.
  destruct e as [name info_err child]. cbn [entry_node]. intros IH. unfold visit.
  destruct info_err; [by repeat constructor|].
  destruct child as [f|err es].
  - destruct (isImageFile cfg (Join location name) f) as [b l].
    apply Forall_app. split.
    + apply Forall_fmap. by apply Forall_true.
    + destruct b; by repeat constructor.
  - constructor; [|constructor]. apply op_joined_Go. apply IH.
Qed.

Lemma search_joined (location : path) (n : node) : joined (search cfg location n).
Proof.
  revert location. induction n as [f|err es IH] using node_nested_ind; intros location.
  - split; [left|]; by repeat constructor.
  - destruct err; [split; [left|]; by repeat constructor|].
    rewrite search_Dir. split.
    + right. by rewrite last_snoc.
    + apply Forall_app. split; [|by repeat constructor].
      induction IH as [|e es He _ IHes]; [constructor|].
      rewrite bind_cons. apply Forall_app. split; [|done]. by apply visit_joined.
Qed.

Lemma discovered_Print_isImageFile (p : path) (f : file) :
  discovered (isImageFile cfg p f).2 = [].
Proof.
  unfold isImageFile.
  destruct (f_open_err f && negb (silence cfg)); [done|].
  destruct (Read (negb (f_open_err f)) f) as [buf err].
  destruct (failed err && negb (silence cfg)); [done|]. simpl.
  destruct (debug cfg); [|done]. by destruct (IsImage buf).
Qed.

Lemma discovered_app (l1 l2 : list msg) :
  discovered (l1 ++ l2) = discovered l1 ++ discovered l2.
Proof. apply omap_app. Qed.

Lemma visit_discovered (location : path) (e : dirent) :
  (∀ location', discovered (prints (search cfg location' (entry_node e)))
                = appends (search cfg location' (entry_node e))) →
  discovered (prints (visit cfg location e)) = appends (visit cfg location e).
Proof.
  destruct e as [name info_err child]. cbn [entry_node]. intros IH.
  destruct info_err; [done|]. destruct child as [f|err es].
  - rewrite visit_file_appends. unfold visit.
    pose proof (discovered_Print_isImageFile (Join location name) f) as Hd.
    destruct (isImageFile cfg (Join location name) f) as [b l].
    rewrite prints_app, prints_Print, discovered_app. simpl in Hd. rewrite Hd.
    by destruct b.
  - unfold visit. rewrite prints_cons, appends_cons, op_prints_Go, op_appends_Go.
    rewrite discovered_app, IH. done.
Qed.

Lemma search_discovered (location : path) (n : node) :
  discovered (prints (search cfg location n)) = appends (search cfg location n).
Proof.
  revert location. induction n as [f|err es IH] using node_nested_ind; intros location; [done|].
  destruct err; [done|]. rewrite prints_search_Dir, appends_search_Dir.
  induction IH as [|e es He _ IHes]; [done|].
  rewrite !bind_cons, discovered_app, IHes. f_equal. by apply visit_discovered.
Qed.

End SearchShape.

(** X5: [search] returns last.  Whatever the schedule, when the top-level
    call has returned every goroutine of the walk has returned, and the
    lines printed are those of the walk, each once, in some order. *)
Theorem search_returns_last `{Filetype} (cfg : config) (location : path) (n : node)
    (sched : list (list nat)) (m : memory) (g : goroutine) :
  run_schedule sched start (Goroutine (search cfg location n) Fresh []) = Some (m, g) →
  finished g = true →
  all_returned g = true ∧ printed m ≡ₚ prints (search cfg location n).
Proof.
  intros Hrun Hfin.
  destruct (run_schedule_returned sched start m _ g
              (joined_settled _ (search_joined cfg location n)) Hrun) as [Hs Hp].
  assert (Hret : all_returned g = true) by by apply settled_returned.
  split; [done|].
  destruct (all_returned_nothing_left g Hret) as [Hnone _].
  rewrite Hnone, app_nil_r in Hp. rewrite Hp, pending_Goroutine. simpl.
  by rewrite app_nil_r.
Qed.

Lemma search_returns_last_witness :
  ∃ m g,
    run_schedule racing start
      (Goroutine (search (H:=signatures) loud [] two_dirs) Fresh []) = Some (m, g)
    ∧ all_returned g = true
    ∧ printed m ≡ₚ [Found ["a"; "1.jpg"]; Found ["b"; "2.png"]].
Proof.
  eexists _, _. split; [reflexivity|].
  apply (search_returns_last (H:=signatures) loud [] two_dirs racing).
  - reflexivity.
  - reflexivity.
Defined.

(** X6: whatever the schedule, the paths printed on [outStream] by the
    time the walk returns are the paths the walk appended, each once: the
    listing is complete also when the collection is not. *)
Theorem outStream_lists_every_append `{Filetype} (cfg : config) (location : path)
    (n : node) (sched : list (list nat)) (m : memory) :
  walk sched (search cfg location n) = Some m →
  discovered (printed m) ≡ₚ appends (search cfg location n).
Proof.
  unfold walk. intros Hwalk.
  destruct (run_schedule sched start _) as [[m' g]|] eqn:Hrun; [|done].
  destruct (finished g) eqn:Hfin; [|done]. injection Hwalk as ->.
  destruct (run_schedule_returned sched start m _ g
              (joined_settled _ (search_joined cfg location n)) Hrun) as [Hs Hp].
  destruct (all_returned_nothing_left g (settled_returned g Hs Hfin)) as [Hnone _].
  rewrite Hnone, app_nil_r, pending_Goroutine in Hp. simpl in Hp.
  rewrite app_nil_r in Hp. unfold discovered at 1. rewrite Hp.
  fold (discovered (prints (search cfg location n))). by rewrite search_discovered.
Qed.

Lemma outStream_lists_every_append_witness :
  ∃ m, walk racing (search (H:=signatures) loud [] two_dirs) = Some m
       ∧ discovered (printed m) ≡ₚ [["a"; "1.jpg"]; ["b"; "2.png"]]
       ∧ elements m = [["b"; "2.png"]].
Proof.
  eexists. split; [reflexivity|]. split; [|reflexivity].
  apply (outStream_lists_every_append (H:=signatures) loud [] two_dirs racing).
  reflexivity.
Defined.

Lemma grown_Goroutine (code : list op) (st : stage) (kids : list goroutine) :
  grown (Goroutine code st kids)
  ↔ match st with Grown s => 0 < len s | _ => True end ∧ Forall grown kids.
Proof. apply everywhere_Goroutine. Qed.

Lemma append_len (h : list (list path)) (s : slice) (p : path) :
  len (append h s p).2 = S (len s).
Proof. unfold append. by destruct (len s <? cap s). Qed.

(** As long as [imageFiles] has length 0 no append has been stored: a
    store leaves it with one element at least. *)
Lemma step_at_unstored (who : list nat) (m m' : memory) (g g' : goroutine) :
  grown g →
  step_at who m g = Some (m', g') →
  grown g'
  ∧ (len (imageFiles m') = 0 → len (imageFiles m) = 0 ∧ unstored g' = unstored g).
Proof.
  revert m m' g g'. induction who as [|i who IH]; intros m m' [code st kids] g' Hg Hstep.
  - apply grown_Goroutine in Hg as [Hst Hkids]. simpl in Hstep.
    destruct code as [|[x|p|body|] c]; [done| | | |].
    + injection Hstep as <- <-. split; [by apply grown_Goroutine|].
      by rewrite !unstored_Goroutine.
    + destruct st as [|s|s'].
      * injection Hstep as <- <-. split; [by apply grown_Goroutine|done].
      * pose proof (append_len (heap m) s p) as Hlen.
        destruct (append (heap m) s p) as [h s']. injection Hstep as <- <-.
        split; [|done]. apply grown_Goroutine. split; [|done]. simpl in Hlen. lia.
      * injection Hstep as <- <-. split; [by apply grown_Goroutine|].
        simpl. lia.
    + injection Hstep as <- <-. split.
      * apply grown_Goroutine. split; [done|]. apply Forall_app. split; [done|].
        constructor; [|constructor]. by apply grown_Goroutine.
      * intros Hz. split; [done|]. rewrite !unstored_Goroutine.
        rewrite appends_cons, op_appends_Go, length_app, fmap_app, sum_list_with_app.
        rewrite fmap_cons, unstored_Goroutine. simpl. lia.
    + destruct (forallb finished kids); [|done]. injection Hstep as <- <-.
      split; [by apply grown_Goroutine|]. by rewrite !unstored_Goroutine.
  - apply grown_Goroutine in Hg as [Hst Hkids]. simpl in Hstep.
    destruct (kids !! i) as [k|] eqn:Hk; [|done].
    destruct (step_at who m k) as [[m1 k1]|] eqn:Hkstep; [|done].
    injection Hstep as <- <-.
    assert (Hgk : grown k).
    { rewrite Forall_forall in Hkids. apply Hkids. by eapply list_elem_of_lookup_2. }
    destruct (IH m m1 k k1 Hgk Hkstep) as [Hk1 Hkeep]. split.
    + apply grown_Goroutine. split; [done|]. by apply Forall_insert.
    + intros Hz. destruct (Hkeep Hz) as [Hz' Hu]. split; [done|].
      rewrite !unstored_Goroutine. f_equal.
      rewrite list_fmap_insert, Hu. rewrite list_insert_id; [done|].
      by rewrite list_lookup_fmap, Hk.
Qed.

Lemma run_schedule_unstored (sched : list (list nat)) (m m' : memory) (g g' : goroutine) :
  grown g →
  run_schedule sched m g = Some (m', g') →
  len (imageFiles m') = 0 → unstored g' = unstored g.
Proof.
  revert m g. induction sched as [|who sched IH]; intros m g Hg Hrun Hz.
  - by injection Hrun as <- <-.
  - simpl in Hrun. destruct (step_at who m g) as [[m1 g1]|] eqn:Hstep; [|done].
    destruct (step_at_unstored who m m1 g g1 Hg Hstep) as [Hg1 Hkeep].
    assert (Hz1 : len (imageFiles m1) = 0).
    { clear Hkeep IH Hstep. revert m1 g1 Hg1 Hrun.
      induction sched as [|who' sched IH]; intros m1 g1 Hg1 Hrun.
      - by injection Hrun as <- <-.
      - simpl in Hrun. destruct (step_at who' m1 g1) as [[m2 g2]|] eqn:Hstep; [|done].
        destruct (step_at_unstored who' m1 m2 g1 g2 Hg1 Hstep) as [Hg2 Hkeep].
        apply Hkeep. by eapply IH. }
    rewrite (IH m1 g1 Hg1 Hrun Hz). by apply Hkeep.
Qed.

(** A walk of code that waits for its goroutines ends with an empty
    collection only when it appended nothing. *)
Lemma walk_keeps_a_path (sched : list (list nat)) (c : list op) (m : memory) :
  joined c → walk sched c = Some m → elements m = [] → appends c = [].
Proof.
  unfold walk. intros Hc Hwalk Hnone.
  destruct (run_schedule sched start (Goroutine c Fresh [])) as [[m' g]|] eqn:Hrun; [|done].
  destruct (finished g) eqn:Hfin; [|done]. injection Hwalk as ->.
  assert (Hvalid : valid (appends c) (heap m) (imageFiles m)).
  { eapply run_schedule_safe; [| |exact Hrun].
    - split; [simpl; lia|]. split; [done|]. split; [done|]. constructor.
    - apply safe_Goroutine. split; [done|]. split; [done|constructor]. }
  destruct Hvalid as (_ & Hle & Hlen & _).
  assert (Hz : len (imageFiles m) = 0).
  { unfold elements in Hnone. apply (f_equal length) in Hnone.
    rewrite length_take in Hnone. simpl in Hnone. lia. }
  assert (Hgrown : grown (Goroutine c Fresh [])).
  { apply grown_Goroutine. split; [done|constructor]. }
  pose proof (run_schedule_unstored sched start m _ g Hgrown Hrun Hz) as Hu.
  destruct (run_schedule_returned sched start m _ g (joined_settled c Hc) Hrun) as [Hs _].
  destruct (all_returned_nothing_left g (settled_returned g Hs Hfin)) as [_ Hzero].
  rewrite Hzero, unstored_Goroutine in Hu. simpl in Hu.
  apply length_zero_iff_nil. lia.
Qed.

Lemma walk_empty_iff `{Filetype} (cfg : config) (location : path) (n : node)
    (sched : list (list nat)) (m : memory) :
  walk sched (search cfg location n) = Some m →
  elements m = [] ↔ appends (search cfg location n) = [].
Proof.
  intros Hwalk. split.
  - apply (walk_keeps_a_path sched _ m); [apply search_joined | done].
  - intros Hnone. destruct (elements m) as [|p l] eqn:He; [done|].
    assert (Hp : p ∈ appends (search cfg location n)).
    { apply (walk_collects_only sched _ m Hwalk). rewrite He. by left. }
    rewrite Hnone in Hp. by apply elem_of_nil in Hp.
Qed.

(** X7: whatever the schedule, the run prints that no image files were
    found, and then ends with status 0 without creating the archive,
    exactly when the walk appended nothing: the appends that overwrite one
    another never leave the collection empty. *)
Theorem no_image_files_found `{Filetype} `{Zip} `{Http} (cfg : config) (w : world)
    (sched : list (list nat)) (n : node) (m : memory) :
  root w = Some n →
  walk sched (search cfg (location cfg) n) = Some m →
  (appends (search cfg (location cfg) n) = [] →
   run cfg w sched = Some (0%Z, (Walked <$> printed m) ++ [NoImageFiles]))
  ∧ (appends (search cfg (location cfg) n) ≠ [] →
     elements m ≠ []
     ∧ ∃ status lines, run cfg w sched = Some (status, lines) ∧ NoImageFiles ∉ lines).
Proof.
  intros Hroot Hwalk. pose proof (walk_empty_iff cfg _ n sched m Hwalk) as Hiff.
  rewrite (run_walked cfg w sched n m Hroot Hwalk). split.
  - intros Hnone. apply Hiff in Hnone. unfold deliver. by rewrite Hnone.
  - intros Hsome. assert (Hne : elements m ≠ []) by (by rewrite Hiff).
    split; [done|]. eexists _, _. split; [reflexivity|]. cbn [snd].
    intros [Hin|Hin]%elem_of_app.
    { apply list_elem_of_fmap in Hin as (x & Hx & _). done. }
    revert Hin. destruct (elements m) as [|p imgs] eqn:Himgs; [done|].
    set (found := p :: imgs) in *.
    destruct (zipImages (create_err w) (disk_of (location cfg) w) found (outputZip cfg))
      as [archive [e|]] eqn:Hzip.
    { rewrite (deliver_build_error cfg w found archive e); [|done|done].
      by intros ?%list_elem_of_singleton. }
    destruct (zipImages_no_error w _ _ _ _ Hzip) as [es ->].
    rewrite (deliver_built cfg w found es); [|done|done]. cbv zeta.
    assert (Hnot : ∀ l : list line, Forall (λ x, x ≠ NoImageFiles) l → NoImageFiles ∉ l).
    { intros l Hl Hin. rewrite Forall_forall in Hl. by apply (Hl _ Hin). }
    destruct (limit <? Z.of_nat (length (encode es)))%Z.
    { apply Hnot. by repeat constructor. }
    unfold sendMessageToTelegram.
    destruct (String.eqb (telegramChatID cfg) EmptyString) eqn:Hchat.
    { apply Hnot. by repeat constructor. }
    destruct (reply (sendMessage _ _ _)) as [e|].
    { apply Hnot. by repeat constructor. }
    destruct (nonempty (telegramToken cfg) && nonempty (telegramChatID cfg)
              && nonempty (message cfg)); [|apply Hnot; by repeat constructor].
    unfold sendFileToTelegram, with_archive. cbn [lookup]. rewrite Hchat, reaches_refl.
    cbn [f_open_err a_file f_data].
    destruct (reply (sendDocument _ _ _ _)); apply Hnot; by repeat constructor.
Qed.

Lemma no_image_files_found_witness :
  ∃ m, walk racing (search (H:=signatures) loud [] two_dirs) = Some m
       ∧ elements m ≠ [].
Proof.
  eexists. split; [reflexivity|].
  apply (no_image_files_found (H:=signatures) (H0:=stored) (H1:=accepting) loud
           (bare (Some two_dirs)) racing two_dirs).
  - reflexivity.
  - reflexivity.
  - discriminate.
Defined.

(** * A walk in which one goroutine appends *)

Lemma appendless_Goroutine (code : list op) (st : stage) (kids : list goroutine) :
  appendless (Goroutine code st kids) ↔ appends code = [] ∧ Forall appendless kids.
Proof. apply everywhere_Goroutine. Qed.

(** A goroutine that appends nothing leaves the slice alone. *)
Lemma step_at_appendless (who : list nat) (m m' : memory) (g g' : goroutine) :
  appendless g →
  step_at who m g = Some (m', g') →
  appendless g' ∧ heap m' = heap m ∧ imageFiles m' = imageFiles m.
Proof.
  revert m m' g g'. induction who as [|i who IH]; intros m m' [code st kids] g' Hg Hstep.
  - apply appendless_Goroutine in Hg as [Hcode Hkids]. simpl in Hstep.
    destruct code as [|[x|p|body|] c]; [done| |done| |].
    + injection Hstep as <- <-. split; [|done]. by apply appendless_Goroutine.
    + injection Hstep as <- <-. split; [|done].
      rewrite appends_cons, op_appends_Go in Hcode.
      apply app_eq_nil in Hcode as [Hbody Hc].
      apply appendless_Goroutine. split; [done|]. apply Forall_app. split; [done|].
      constructor; [|constructor]. by apply appendless_Goroutine.
    + destruct (forallb finished kids); [|done]. injection Hstep as <- <-.
      split; [|done]. by apply appendless_Goroutine.
  - apply appendless_Goroutine in Hg as [Hcode Hkids]. simpl in Hstep.
    destruct (kids !! i) as [k|] eqn:Hk; [|done].
    destruct (step_at who m k) as [[m1 k1]|] eqn:Hkstep; [|done].
    injection Hstep as <- <-.
    assert (Hqk : appendless k).
    { rewrite Forall_forall in Hkids. apply Hkids. by eapply list_elem_of_lookup_2. }
    destruct (IH m m1 k k1 Hqk Hkstep) as (Hk1 & Hh & Hi). split; [|done].
    apply appendless_Goroutine. split; [done|]. by apply Forall_insert.
Qed.

(** [append] from an anchored header: the new header is anchored and
    holds the old elements and the new one; the old header stays anchored
    and keeps its elements. *)
Lemma append_anchored (h : list (list path)) (s : slice) (p : path) :
  anchored h s →
  anchored (append h s p).1 (append h s p).2
  ∧ take (len (append h s p).2) (array (append h s p).1 (ptr (append h s p).2))
    = take (len s) (array h (ptr s)) ++ [p]
  ∧ anchored (append h s p).1 s
  ∧ take (len s) (array (append h s p).1 (ptr s)) = take (len s) (array h (ptr s)).
Proof.
  intros (Hptr & Hle & Hlen).
  pose proof (append_sound h s p Hle Hlen) as Hsound.
  unfold append in *. destruct (len s <? cap s) eqn:E.
  - destruct Hsound as (Hle' & Hlen' & Htake). unfold anchored. cbn [fst snd ptr len cap] in *.
    rewrite length_alter. split; [done|]. split; [done|]. split; [done|].
    unfold array in *. rewrite list_lookup_alter_eq.
    destruct (h !! ptr s) as [a|]; simpl in *; [|done].
    by rewrite take_insert_ge.
  - destruct Hsound as (Hle' & Hlen' & Htake). unfold anchored. cbn [fst snd ptr len cap] in *.
    rewrite length_app. simpl. split; [split; [lia|done]|]. split; [done|].
    unfold array in *. rewrite lookup_app_l by done. split; [|done].
    split; [lia|done].
Qed.

(** Through code whose goroutines append nothing the main goroutine
    appends in order, whatever steps the others take in between. *)
Lemma step_at_in_order (all : list path) (who : list nat) (m m' : memory)
    (g g' : goroutine) :
  in_order all m g →
  step_at who m g = Some (m', g') →
  in_order all m' g'.
Proof.
  destruct g as [code st kids]. intros (Hanch & Hkids & Htop & Hall & Hst) Hstep.
  destruct who as [|i who].
  - simpl in Hstep. destruct code as [|[x|p|body|] c]; [done| | | |].
    + injection Hstep as <- <-. apply Forall_cons in Htop as [_ Htop].
      unfold in_order, print, elements. cbn [heap imageFiles].
      split; [done|]. split; [done|]. split; [done|]. split; [done|].
      destruct st as [|s|s']; [done|done|]. by destruct Hst as (p & [=] & _).
    + destruct st as [|s|s'].
      * injection Hstep as <- <-. unfold in_order.
        split; [done|]. split; [done|]. split; [done|]. by split.
      * subst s. destruct (append_anchored (heap m) (imageFiles m) p Hanch)
          as (Hanch' & Htake & Hold & Hsame).
        destruct (append (heap m) (imageFiles m) p) as [h s']. injection Hstep as <- <-.
        cbn [fst snd] in *. unfold in_order, set_heap, elements. cbn [heap imageFiles].
        split; [done|]. split; [done|]. split; [done|].
        rewrite Hsame. split; [exact Hall|]. exists p.
        split; [done|]. split; [exact Hanch'|exact Htake].
      * injection Hstep as <- <-. destruct Hst as (q & [= <-] & Hanch' & Htake).
        apply Forall_cons in Htop as [_ Htop].
        unfold in_order, set_imageFiles, elements. cbn [heap imageFiles].
        split; [done|]. split; [done|]. split; [done|]. split; [|done].
        rewrite Htake, <- Hall, appends_cons. unfold elements. simpl.
        by rewrite <- app_assoc.
    + injection Hstep as <- <-. apply Forall_cons in Htop as [Hbody Htop].
      rewrite appends_cons, op_appends_Go, Hbody in Hall.
      unfold in_order. split; [done|]. split.
      { apply Forall_app. split; [done|]. constructor; [|constructor].
        by apply appendless_Goroutine. }
      split; [done|]. split; [done|].
      destruct st as [|s|s']; [done|done|]. by destruct Hst as (p & [=] & _).
    + destruct (forallb finished kids); [|done]. injection Hstep as <- <-.
      apply Forall_cons in Htop as [_ Htop].
      unfold in_order. split; [done|]. split; [done|]. split; [done|]. split; [done|].
      destruct st as [|s|s']; [done|done|]. by destruct Hst as (p & [=] & _).
  - simpl in Hstep. destruct (kids !! i) as [k|] eqn:Hk; [|done].
    destruct (step_at who m k) as [[m1 k1]|] eqn:Hkstep; [|done].
    injection Hstep as <- <-.
    assert (Hqk : appendless k).
    { rewrite Forall_forall in Hkids. apply Hkids. by eapply list_elem_of_lookup_2. }
    destruct (step_at_appendless who m m1 k k1 Hqk Hkstep) as (Hk1 & Hh & Hi).
    unfold in_order, elements in *. rewrite Hh, Hi.
    split; [done|]. split; [by apply Forall_insert|]. done.
Qed.

Lemma run_schedule_in_order (all : list path) (sched : list (list nat)) (m m' : memory)
    (g g' : goroutine) :
  in_order all m g →
  run_schedule sched m g = Some (m', g') →
  in_order all m' g'.
Proof.
  revert m g. induction sched as [|who sched IH]; intros m g Hg Hrun.
  - by injection Hrun as <- <-.
  - simpl in Hrun. destruct (step_at who m g) as [[m1 g1]|] eqn:Hstep; [|done].
    eapply IH; [|done]. by eapply step_at_in_order.
Qed.

Lemma only_root_collects_top `{Filetype} (cfg : config) (location : path) (n : node) :
  only_root_collects cfg location n → top_level_only (search cfg location n).
Proof.
  destruct n as [f|[] es]; [by repeat constructor..|].
  rewrite search_Dir. simpl. intros Hes.
  apply Forall_app. split; [|by repeat constructor].
  induction Hes as [|[name info_err child] es He _ IH]; [constructor|].
  rewrite bind_cons. apply Forall_app. split; [|done].
  unfold visit. destruct info_err; [by repeat constructor|].
  destruct child as [f|err sub].
  - destruct (isImageFile cfg (Join location name) f) as [b l].
    apply Forall_app. split.
    + apply Forall_fmap. by apply Forall_true.
    + destruct b; by repeat constructor.
  - by repeat constructor.
Qed.

(** X8: when nothing is appended below the directory searched (it has no
    sub-directory, or none that holds an accepted file), only the top-level
    call appends, and whatever the schedule the walk ends with the paths
    of its accepted files in the collection, in the order of the listing. *)
Theorem root_only_walk_is_complete `{Filetype} (cfg : config) (location : path) (n : node)
    (sched : list (list nat)) (m : memory) :
  only_root_collects cfg location n →
  walk sched (search cfg location n) = Some m →
  elements m = appends (search cfg location n).
Proof.
  unfold walk. intros Hn Hwalk.
  destruct (run_schedule sched start _) as [[m' g]|] eqn:Hrun; [|done].
  destruct g as [[|o c] st kids]; [|done]. injection Hwalk as ->.
  assert (Hstart : in_order (appends (search cfg location n)) start
                     (Goroutine (search cfg location n) Fresh [])).
  { split; [by split; [simpl; lia|]|]. split; [constructor|].
    split; [by apply only_root_collects_top|]. done. }
  destruct (run_schedule_in_order _ sched start m _ _ Hstart Hrun)
    as (_ & _ & _ & Hall & _).
  by rewrite app_nil_r in Hall.
Qed.

Lemma root_only_walk_is_complete_witness :
  ∃ m, walk alone (search (H:=signatures) loud [] single) = Some m
       ∧ elements m = [["a.jpg"]].
Proof.
  eexists. split; [reflexivity|].
  apply (root_only_walk_is_complete (H:=signatures) loud [] single alone).
  - repeat constructor.
  - reflexivity.
Defined.
(** * More about the archive *)

Section MoreArchiveFacts.
Context `{Zip}.

Lemma add_each_app (d : disk) (l1 l2 : list path) (zw : list entry) :
  add_each d (l1 ++ l2) zw
  = match add_each d l1 zw with
    | (zw', None) => add_each d l2 zw'
    | failed => failed
    end.
Proof.
  revert zw. induction l1 as [|p l1 IH]; intros zw; [done|].
  simpl. destruct (addToZip d p zw) as [zw' [e|]]; [done|]. apply IH.
Qed.

(** Entries written from the disk as [os.Create] left it are those of the
    disk before, for paths that do not reach the output file, and extract
    to the bytes of their files. *)
Lemma entries_extract (d : disk) (output : path) (paths : list path) (es : list entry) :
  (∀ raw, inflate (deflate raw) = Some raw) →
  Forall (λ p, reaches d p output = false) paths →
  Forall2 (λ p e, ∃ f, Create output d p = Some f ∧ e = entry_of p f) paths es →
  Forall2 (λ p e, Name (header e) = p
                  ∧ ∃ f, d p = Some f ∧ extract e = Some (f_data f)) paths es.
Proof.
  intros Hcodec Hne Hrel.
  induction Hrel as [|p e l es' (f & Hf & ->) _ IH]; [constructor|].
  apply Forall_cons in Hne as [Hp Hne]. constructor; [|by apply IH].
  split; [done|]. exists f. split.
  - rewrite <- Hf. symmetry. by apply Create_other.
  - unfold extract. simpl. apply Hcodec.
Qed.

End MoreArchiveFacts.

(** X9: a build that fails leaves the entries it had finished as they
    are: when the paths before the failing one can be opened, stat'ed and
    copied and none of them reaches the output file (as the output path
    itself, a link to it or another spelling of it), the archive on disk
    starts with one entry for each of them, named by it and extracting to
    the bytes of its file; behind them it holds one entry at most, the one
    that was being written. *)
Theorem finished_entries_survive `{Zip} (d : disk) (l1 l2 : list path) (bad output : path) :
  (∀ raw, inflate (deflate raw) = Some raw) →
  Forall (λ p, reaches d p output = false) l1 →
  Forall (λ p, zippable d p = true) l1 →
  zippable (Create output d) bad = false →
  ∃ es1 rest e,
    zipImages false d (l1 ++ bad :: l2) output = (Some (es1 ++ rest), Some e)
    ∧ Forall2 (λ p x, Name (header x) = p
                      ∧ ∃ f, d p = Some f ∧ extract x = Some (f_data f)) l1 es1
    ∧ length rest ≤ 1.
Proof.
  intros Hcodec Hne Hall Hbad.
  assert (Hall' : Forall (λ p, zippable (Create output d) p = true) l1).
  { rewrite Forall_forall in Hall, Hne. apply Forall_forall. intros p Hp.
    rewrite zippable_Create; auto. }
  destruct (add_each_zippable (Create output d) l1 [] Hall') as (es1 & Hes1 & Hrel).
  destruct (addToZip_unzippable (Create output d) bad es1 Hbad) as (zw' & e & Hadd & Hzw).
  unfold zipImages. rewrite add_each_app, Hes1. simpl. rewrite Hadd.
  destruct Hzw as [->|(x & -> & _)].
  - exists es1, [], e. rewrite app_nil_r. split; [done|].
    split; [by eapply entries_extract|simpl; lia].
  - exists es1, [x], e. split; [done|]. split; [by eapply entries_extract|done].
Qed.

Lemma finished_entries_survive_witness :
  ∃ es1 rest e,
    zipImages (H:=stored) false drawer
      ([["photo.jpg"]] ++ ["old.jpg"] :: [["later.png"]]) ["images.zip"]
    = (Some (es1 ++ rest), Some e)
    ∧ length es1 = 1.
Proof.
  destruct (finished_entries_survive (H:=stored) drawer
              [["photo.jpg"]] [["later.png"]] ["old.jpg"] ["images.zip"])
    as (es1 & rest & e & Hzip & Hrel & _).
  - reflexivity.
  - repeat constructor.
  - repeat constructor.
  - reflexivity.
  - exists es1, rest, e. split; [done|].
    apply Forall2_length in Hrel. by rewrite <- Hrel.
Defined.

(** * From the walk to the archive *)

(** The file the walk meets at a path is the file [os.Open] finds there. *)
Lemma reach_resolve (n : node) (rest : path) (f : file) :
  reach n rest = Some f → resolve n rest = Some f.
Proof.
  revert rest. induction n as [f'|err es IH] using node_nested_ind; intros rest.
  - by destruct rest.
  - destruct err; [by destruct rest|]. destruct rest as [|name rest]; [done|].
    simpl. induction IH as [|[nm info_err child] es Hchild _ IHes]; [done|].
    simpl in *. destruct (String.eqb nm name); [|exact IHes].
    destruct info_err; [done|]. apply Hchild.
Qed.

Lemma below_app (location rest : path) : below location (location ++ rest) = Some rest.
Proof.
  induction location as [|a location IH]; [done|]. simpl. by rewrite String.eqb_refl.
Qed.

Lemma disk_of_reach (location rest : path) (w : world) (n : node) (f : file) :
  root w = Some n → reach n rest = Some f → disk_of location w (location ++ rest) = Some f.
Proof.
  intros Hroot Hreach. unfold disk_of. rewrite Hroot. simpl.
  rewrite below_app. simpl. by apply reach_resolve.
Qed.

Lemma reach_every_file (test : file → bool) (n : node) (rest : path) (f : file) :
  every_file test n = true → reach n rest = Some f → test f = true.
Proof.
  revert rest. induction n as [f'|err es IH] using node_nested_ind; intros rest.
  - destruct rest; [|done]. simpl. by intros ? [= <-].
  - destruct err; [by destruct rest|]. destruct rest as [|name rest]; [done|].
    simpl. induction IH as [|[nm info_err child] es Hchild _ IHes]; [done|].
    simpl in *. intros [Hc Hes]%andb_true_iff.
    destruct (String.eqb nm name); [|by apply IHes].
    destruct info_err; [done|]. by apply Hchild.
Qed.

Lemma copies_flags (f : file) :
  copies f = true → f_open_err f = false ∧ f_stat_err f = false ∧ f_copy_err f = None.
Proof.
  unfold copies. intros [[Ho Hs]%andb_true_iff Hc]%andb_true_iff.
  apply negb_true_iff in Ho, Hs. by apply bool_decide_eq_true in Hc.
Qed.

(** X10: what the walk appends can be archived.  In a tree where no
    directory lists a name twice, when the accepted files can be opened,
    stat'ed and copied, [zipImages] returns no error on every list of
    paths that [search] appends and that do not reach the output file (as
    the output path itself, a link to it or another spelling of it): the
    archive has one entry per path, in order, named by it and extracting
    to the bytes of the accepted file the walk met there. *)
Theorem appended_paths_are_archived `{Filetype} `{Zip} (cfg : config) (w : world)
    (n : node) (imgs : list path) :
  let d := disk_of (location cfg) w in
  tidy n →
  root w = Some n →
  (∀ raw, inflate (deflate raw) = Some raw) →
  (∀ rest f, reach n rest = Some f →
             (isImageFile cfg (location cfg ++ rest) f).1 = true →
             f_open_err f = false ∧ f_stat_err f = false ∧ f_copy_err f = None) →
  Forall (λ p, p ∈ appends (search cfg (location cfg) n)) imgs →
  Forall (λ p, reaches d p (outputZip cfg) = false) imgs →
  ∃ es,
    zipImages false d imgs (outputZip cfg) = (Some es, None)
    ∧ Forall2 (λ p e, Name (header e) = p
                      ∧ ∃ rest f, p = location cfg ++ rest
                                  ∧ reach n rest = Some f
                                  ∧ (isImageFile cfg p f).1 = true
                                  ∧ extract e = Some (f_data f)) imgs es.
Proof.
  intros d Htidy Hroot Hcodec Hfiles Happ Hout.
  assert (Hmet : Forall (λ p, reaches d p (outputZip cfg) = false
                              ∧ ∃ rest f, p = location cfg ++ rest
                                          ∧ reach n rest = Some f
                                          ∧ (isImageFile cfg p f).1 = true
                                          ∧ d p = Some f
                                          ∧ zippable d p = true) imgs).
  { rewrite Forall_forall in Happ, Hout. apply Forall_forall. intros p Hp.
    split; [by apply Hout|]. specialize (Happ p Hp).
    apply (search_collects cfg n (location cfg) Htidy) in Happ
      as (name & rest & f & -> & Hreach & Hacc).
    destruct (Hfiles _ _ Hreach Hacc) as (Ho & Hs & Hc).
    assert (Hd : d (location cfg ++ name :: rest) = Some f) by by apply (disk_of_reach _ _ w n).
    exists (name :: rest), f. do 4 (split; [done|]).
    unfold zippable. by rewrite Hd, Ho, Hs, Hc. }
  assert (Hall : Forall (λ p, zippable (Create (outputZip cfg) d) p = true) imgs).
  { eapply Forall_impl; [exact Hmet|]. intros p (Hne & _ & _ & _ & _ & _ & _ & Hz).
    by rewrite zippable_Create. }
  destruct (add_each_zippable (Create (outputZip cfg) d) imgs [] Hall)
    as (es & Hes & Hrel).
  exists es. unfold zipImages. rewrite Hes. split; [done|].
  clear Hes Hall Happ Hout.
  induction Hrel as [|p e l es' (f & Hf & ->) _ IH]; [constructor|].
  apply Forall_cons in Hmet as [(Hne & rest & f' & -> & Hreach & Hacc & Hd & _) Hmet].
  constructor; [|by apply IH]. split; [done|].
  rewrite Create_other in Hf by done. rewrite Hd in Hf. injection Hf as <-.
  exists rest, f'. do 3 (split; [done|]). unfold extract. simpl. apply Hcodec.
Qed.

Lemma appended_paths_are_archived_witness :
  ∃ es,
    zipImages (H:=stored) false (disk_of [] (bare (Some two_dirs)))
      [["a"; "1.jpg"]; ["b"; "2.png"]] ["images.zip"]
    = (Some es, None)
    ∧ length es = 2.
Proof.
  destruct (appended_paths_are_archived (H:=signatures) (H0:=stored) loud
              (bare (Some two_dirs)) two_dirs [["a"; "1.jpg"]; ["b"; "2.png"]])
    as (es & Hzip & Hrel).
  - simpl. repeat split; by apply (bool_decide_eq_true_1 _).
  - reflexivity.
  - reflexivity.
  - intros rest f Hreach _. apply copies_flags.
    by apply (reach_every_file copies two_dirs rest).
  - apply Forall_forall. intros p Hp. exact Hp.
  - repeat constructor.
  - exists es. split; [exact Hzip|]. apply Forall2_length in Hrel. by rewrite <- Hrel.
Defined.

(** * The count in the summary line *)

Section CountFacts.
Context `{Zip}.

(** A loop of [zipImages] that ends without an error has added the entry
    of every path, in order. *)
Lemma add_each_done (d : disk) (paths : list path) (zw zw' : list entry) :
  add_each d paths zw = (zw', None) →
  ∃ es, zw' = zw ++ es
        ∧ Forall2 (λ p e, ∃ f, d p = Some f ∧ e = entry_of p f) paths es.
Proof.
  revert zw. induction paths as [|p paths IH]; intros zw Hadd.
  - injection Hadd as <-. exists []. by rewrite app_nil_r.
  - simpl in Hadd. destruct (zippable d p) eqn:Hz.
    + destruct (addToZip_zippable d p zw Hz) as (f & Hf & Hp). rewrite Hp in Hadd.
      destruct (IH _ Hadd) as (es & -> & Hrel).
      exists (entry_of p f :: es). rewrite <- app_assoc. split; [done|].
      constructor; [by exists f|done].
    + destruct (addToZip_unzippable d p zw Hz) as (zw1 & e & Hp & _).
      by rewrite Hp in Hadd.
Qed.

End CountFacts.

Ltac line_cases H :=
  simpl in H;
  repeat match type of H with
         | _ ∈ _ ++ _ => apply elem_of_app in H as [H|H]
         | _ ∈ _ :: _ => apply elem_of_cons in H as [H|H]
         | _ ∈ [] => by apply elem_of_nil in H
         | Zipped _ _ = Zipped _ _ => fail 1
         | _ = _ => discriminate H
         end.

(** X14: the count of the summary line is the count of the archive.  When
    a run prints that it zipped [k] images into [out], then [out] is the
    output file, [zipImages] has returned no error, and the archive holds
    [k] entries: one for each path of [imageFiles], in order and under the
    path as its name. *)
Theorem zipped_line_counts_entries `{Filetype} `{Zip} `{Http} (cfg : config) (w : world)
    (sched : list (list nat)) (status : Z) (lines : list line) (k : nat) (out : path) :
  run cfg w sched = Some (status, lines) →
  Zipped k out ∈ lines →
  ∃ n m es,
    root w = Some n
    ∧ walk sched (search cfg (location cfg) n) = Some m
    ∧ zipImages (create_err w) (disk_of (location cfg) w) (elements m) (outputZip cfg)
      = (Some es, None)
    ∧ out = outputZip cfg
    ∧ k = length es
    ∧ Name ∘ header <$> es = elements m.
Proof.
  intros Hrun Hin. destruct (root w) as [n|] eqn:Hroot.
  2: { unfold run in Hrun. rewrite Hroot in Hrun. injection Hrun as <- <-. line_cases Hin. }
  destruct (walk sched (search cfg (location cfg) n)) as [m|] eqn:Hwalk.
  2: { unfold run in Hrun. by rewrite Hroot, Hwalk in Hrun. }
  rewrite (run_walked cfg w sched n m Hroot Hwalk) in Hrun. injection Hrun as <- <-.
  exists n, m. apply elem_of_app in Hin as [Hin|Hin].
  { apply list_elem_of_fmap in Hin as (x & Hx & _). discriminate Hx. }
  destruct (elements m) as [|p imgs] eqn:Himgs; [simpl in Hin; line_cases Hin|].
  set (found := p :: imgs) in *.
  destruct (zipImages (create_err w) (disk_of (location cfg) w) found (outputZip cfg))
    as [archive [e|]] eqn:Hzip.
  { rewrite (deliver_build_error cfg w found archive e) in Hin by done. line_cases Hin. }
  destruct (zipImages_no_error w _ _ _ _ Hzip) as [es ->].
  exists es. do 3 (split; [done|]).
  assert (Hnames : Name ∘ header <$> es = found).
  { unfold zipImages in Hzip. destruct (create_err w); [done|].
    destruct (add_each (Create (outputZip cfg) (disk_of (location cfg) w)) found [])
      as [zw err] eqn:Hadd.
    injection Hzip as -> ->. apply add_each_done in Hadd as (es' & -> & Hrel).
    by apply entry_names in Hrel. }
  assert (Hlen : length found = length es) by by rewrite <- Hnames, length_fmap.
  rewrite (deliver_built cfg w found es) in Hin by done. cbv zeta in Hin.
  assert (Hline : Zipped k out = Zipped (length found) (outputZip cfg)).
  { destruct (limit <? Z.of_nat (length (encode es)))%Z; [by line_cases Hin|].
    unfold sendMessageToTelegram in Hin.
    destruct (String.eqb (telegramChatID cfg) EmptyString) eqn:Hchat; [by line_cases Hin|].
    destruct (reply _) as [e|]; [by line_cases Hin|].
    destruct (nonempty (telegramToken cfg) && nonempty (telegramChatID cfg)
              && nonempty (message cfg)); [|by line_cases Hin].
    unfold sendFileToTelegram, with_archive in Hin.
    cbn [lookup] in Hin. rewrite Hchat, reaches_refl in Hin.
    cbn [f_open_err a_file f_data] in Hin.
    destruct (reply _) as [e|]; by line_cases Hin. }
  injection Hline as -> ->. split; [done|]. split; [exact Hlen|exact Hnames].
Qed.

Lemma zipped_line_counts_entries_witness :
  ∃ es,
    zipImages (H:=stored) false (disk_of [] (bare (Some single)))
      [["a.jpg"]] ["images.zip"]
    = (Some es, None)
    ∧ 1 = length es.
Proof.
  destruct (zipped_line_counts_entries (H:=signatures) (H0:=stored) (H1:=accepting) to_chat
              (bare (Some single)) alone 0%Z
              [Walked (Found ["a.jpg"]); Zipped 1 ["images.zip"];
               Called (sendMessage "token" "42" "pictures");
               Called (sendDocument "token" "42" "images.zip"
                         (encode (Zip:=stored)
                            [entry_of (H:=stored) ["a.jpg"] (a_file jpeg_bytes)]));
               Sent ["images.zip"] "42"] 1 ["images.zip"])
    as (n & m & es & Hroot & Hwalk & Hzip & _ & Hk & _).
  - reflexivity.
  - apply list_elem_of_further, list_elem_of_here.
  - injection Hroot as <-.
    assert (Hm : elements m = [["a.jpg"]]).
    { change (walk alone (search to_chat [] single))
        with (Some {| heap := [[]; [["a.jpg"]]];
                      imageFiles := {| ptr := 1; len := 1; cap := 1 |};
                      printed := [Found ["a.jpg"]] |}) in Hwalk.
      by injection Hwalk as <-. }
    rewrite Hm in Hzip. by exists es.
Defined.
